(** * Jira link plugin for release-please: ticket extraction and commit annotation

    A shallow embedding of [src/plugins/jira-link.ts] (the ticket extractor,
    the link formatter and [addJiraLinksToCommits]) and of the adapter
    [JiraLinkPlugin.processCommits] of [src/plugins/jira-link-plugin.ts],
    together with the part of the JavaScript runtime they rely on:
    strings, [String.prototype.match] over a fragment of ECMAScript regular
    expressions (with the [lastIndex] that a sticky expression carries from
    one call to the next), exceptions, and objects mutated in place. *)

From Stdlib Require Import Ascii String.
From stdpp Require Import base list strings pretty.

(** ** JavaScript strings

    A string is a sequence of code units.  The model is of the strings
    whose code units are ASCII ([isAscii]): on those [toUpperCase] is
    JavaScript's, which maps [a]-[z] to [A]-[Z] and leaves every other code
    unit alone.  The type [ascii] has room for the code units 128 to 255 as
    well, and the functions below are total on them, but JavaScript's case
    mapping of those code units is not modelled (it leaves the 8-bit range
    for two of them and changes the length for a third): what is proved
    about the case of letters is stated for ASCII strings. *)
Module JSString.

Definition isAsciiChar (c : ascii) : bool := nat_of_ascii c <? 128.

Fixpoint isAscii (s : string) : bool :=
  match s with
  | EmptyString => true
  | String c s' => isAsciiChar c && isAscii s'
  end.

Definition toUpperCaseChar (c : ascii) : ascii :=
  let n := nat_of_ascii c in
  if (97 <=? n) && (n <=? 122) then ascii_of_nat (n - 32) else c.

(** [s.toUpperCase()] *)
Fixpoint toUpperCase (s : string) : string :=
  match s with
  | EmptyString => EmptyString
  | String c s' => String (toUpperCaseChar c) (toUpperCase s')
  end.

(** [s.startsWith(searchString)] *)
Fixpoint startsWith (s searchString : string) : bool :=
  match searchString, s with
  | EmptyString, _ => true
  | String _ _, EmptyString => false
  | String a t, String c s' => if decide (a = c) then startsWith s' t else false
  end.

(** [s.includes(searchString)]: [searchString] occurs in [s] at some
    position; the empty string occurs in every string. *)
Fixpoint includes (s searchString : string) : bool :=
  startsWith s searchString ||
  match s with
  | EmptyString => false
  | String _ s' => includes s' searchString
  end.

(** [s.substring(start, end)] for [start <= end]; both ends are clamped
    to the length of [s]. *)
Definition substring (s : string) (start end_ : nat) : string :=
  String.substring start (end_ - start) s.

(** Only the empty string is falsy. *)
Definition truthy (s : string) : bool :=
  match s with EmptyString => false | String _ _ => true end.

End JSString.

(** ** Regular expressions

    The patterns of the model: literal characters, character classes given
    by ranges, [\d], sequence, disjunction, greedy quantifiers [{min,max}]
    (with [*], [+] and [?] as instances) and capturing groups; a
    non-capturing group [(?:p)] is [p] itself.  Flags: [i], [g] and [y].
    Matching is the backtracking semantics of ECMA-262: a matcher maps a
    state to the end states it can reach, in the order in which the
    backtracking search tries them, so that the head of the list is the
    match the engine reports.

    A RegExp object is more than its pattern and flags: it has the
    mutable property [lastIndex], which [exec] reads and writes when the
    expression is global or sticky.  The record [t] is the immutable part;
    the functions that stand for a call take [lastIndex] as an argument
    and return its new value.  The flags [d], [m], [s] and [u] have no
    bearing on what the patterns above match in ASCII text and are left
    out. *)
Module RegExp.

Inductive Pattern : Type :=
| Empty
| Char (c : ascii)
| CharClass (ranges : list (ascii * ascii))
| Digit
| Seq (p1 p2 : Pattern)
| Disjunction (p1 p2 : Pattern)
| Quantified (p : Pattern) (min : nat) (max : option nat)
| Group (p : Pattern).

Record t : Type := mk {
  source : Pattern;
  ignoreCase : bool;
  global : bool;
  sticky : bool
}.

Fixpoint countLeftCapturingParens (p : Pattern) : nat :=
  match p with
  | Empty | Char _ | CharClass _ | Digit => 0
  | Seq p1 p2 | Disjunction p1 p2 =>
      countLeftCapturingParens p1 + countLeftCapturingParens p2
  | Quantified p' _ _ => countLeftCapturingParens p'
  | Group p' => S (countLeftCapturingParens p')
  end.

(** The patterns that [new RegExp] accepts: a class range or a quantifier
    whose bounds are out of order is a [SyntaxError] when the expression
    is constructed. *)
Fixpoint wellFormed (p : Pattern) : bool :=
  match p with
  | Empty | Char _ | Digit => true
  | CharClass ranges =>
      forallb (λ r, nat_of_ascii r.1 <=? nat_of_ascii r.2) ranges
  | Seq p1 p2 | Disjunction p1 p2 => wellFormed p1 && wellFormed p2
  | Quantified p' min max =>
      wellFormed p' && match max with Some n => min <=? n | None => true end
  | Group p' => wellFormed p'
  end.

(** Group [k] (numbered from 1) is kept at index [k - 1]; [None] is
    [undefined]. *)
Record MatchState : Type := mkState {
  endIndex : nat;
  captures : list (option string)
}.

Definition Matcher : Type := MatchState → list MatchState.

Definition rangeChars (r : ascii * ascii) : list ascii :=
  ascii_of_nat <$> seq (nat_of_ascii r.1) (S (nat_of_ascii r.2) - nat_of_ascii r.1).

Definition digits : list ascii := rangeChars ("0"%char, "9"%char).

Section Matching.
Variable Input : string.
Variable icase : bool.

Definition Canonicalize (ch : ascii) : ascii :=
  if icase then JSString.toUpperCaseChar ch else ch.

Definition CharacterSetMatcher (A : list ascii) : Matcher := λ x,
  match String.get (endIndex x) Input with
  | None => []
  | Some ch =>
      if existsb (λ a, bool_decide (Canonicalize a = Canonicalize ch)) A
      then [mkState (S (endIndex x)) (captures x)]
      else []
  end.

Definition clearCaptures (parenIndex parenCount : nat)
    (cap : list (option string)) : list (option string) :=
  foldr (λ k acc, <[k := None]> acc) cap (seq parenIndex parenCount).

Fixpoint RepeatMatcher (fuel : nat) (m : Matcher) (min : nat)
    (max : option nat) (parenIndex parenCount : nat)
    (x : MatchState) : list MatchState :=
  match fuel with
  | 0 => []
  | S fuel' =>
      if bool_decide (max = Some 0) then [x] else
      let d : Matcher := λ y,
        if (min =? 0) && (endIndex y =? endIndex x) then []
        else RepeatMatcher fuel' m (pred min) (pred <$> max)
               parenIndex parenCount y in
      let xr :=
        mkState (endIndex x) (clearCaptures parenIndex parenCount (captures x)) in
      let z := m xr ≫= d in
      if min =? 0 then z ++ [x] else z
  end.

Fixpoint compile (p : Pattern) (parenIndex : nat) : Matcher :=
  match p with
  | Empty => λ x, [x]
  | Char c => CharacterSetMatcher [c]
  | CharClass ranges => CharacterSetMatcher (ranges ≫= rangeChars)
  | Digit => CharacterSetMatcher digits
  | Seq p1 p2 => λ x,
      compile p1 parenIndex x ≫=
      compile p2 (parenIndex + countLeftCapturingParens p1)
  | Disjunction p1 p2 => λ x,
      compile p1 parenIndex x ++
      compile p2 (parenIndex + countLeftCapturingParens p1) x
  | Quantified p' min max => λ x,
      RepeatMatcher (S (min + (String.length Input - endIndex x)))
        (compile p' parenIndex) min max
        parenIndex (countLeftCapturingParens p') x
  | Group p' => λ x,
      (λ y, mkState (endIndex y)
              (<[parenIndex :=
                   Some (JSString.substring Input (endIndex x) (endIndex y))]>
                 (captures y)))
      <$> compile p' (S parenIndex) x
  end.

(** One attempt of the pattern at position [i]. *)
Definition matchAt (p : Pattern) (i : nat) : option MatchState :=
  head (compile p 0 (mkState i (replicate (countLeftCapturingParens p) None))).

(** The search loop of [RegExpBuiltinExec]: positions [i], [i + 1], ...
    up to the length of the input; [n] counts the positions left. *)
Fixpoint search (p : Pattern) (n i : nat) : option (nat * MatchState) :=
  match n with
  | 0 => None
  | S n' =>
      match matchAt p i with
      | Some r => Some (i, r)
      | None => search p n' (S i)
      end
  end.

(** The positions [RegExpBuiltinExec] tries from [lastIndex]: all those
    up to the length of the input, or, for a sticky expression, the
    first of them only. *)
Definition positions (sticky : bool) (lastIndex : nat) : nat :=
  if sticky then Nat.min 1 (S (String.length Input) - lastIndex)
  else S (String.length Input) - lastIndex.

Definition exec (p : Pattern) (sticky : bool) (lastIndex : nat)
    : option (nat * MatchState) :=
  search p (positions sticky lastIndex) lastIndex.

Definition matched (r : nat * MatchState) : string :=
  JSString.substring Input r.1 (endIndex r.2).

(** The loop of [RegExp.prototype[Symbol.match]] for a global
    expression: the whole matches from [lastIndex] on, an empty match
    advancing [lastIndex] by one. *)
Fixpoint matchGlobal (p : Pattern) (sticky : bool) (fuel lastIndex : nat)
    : list string :=
  match fuel with
  | 0 => []
  | S fuel' =>
      match exec p sticky lastIndex with
      | None => []
      | Some r =>
          matched r ::
          matchGlobal p sticky fuel'
            (if JSString.truthy (matched r) then endIndex r.2
             else S (endIndex r.2))
      end
  end.

End Matching.

(** [y] is [x] moved forward, and not past the end of the input. *)
Definition advances (Input : string) (x y : MatchState) : Prop :=
  endIndex x ≤ endIndex y ∧
  (endIndex y = endIndex x ∨ endIndex y ≤ String.length Input).

Definition progressive (Input : string) (m : Matcher) : Prop :=
  ∀ x y, y ∈ m x → advances Input x y.

End RegExp.

(** [str.match(regexp)] on a RegExp object whose [lastIndex] is
    [lastIndex]: the result, and the [lastIndex] the call leaves.  In the
    result [None] is [null]; otherwise it is the array whose element 0 is
    the matched text and whose element [k] is capturing group [k] (or,
    for a global expression, the array of all whole matches).

    A global expression is matched from 0, whatever [lastIndex] was, and
    is left at 0.  A sticky one is tried at [lastIndex] only, and is left
    at the end of the match, or at 0 when there is none.  Any other
    expression is searched from 0 and its [lastIndex] is not written. *)
Definition String_match (str : string) (regexp : RegExp.t) (lastIndex : nat)
    : option (list (option string)) * nat :=
  let p := RegExp.source regexp in
  let icase := RegExp.ignoreCase regexp in
  let sticky := RegExp.sticky regexp in
  if RegExp.global regexp then
    (match RegExp.matchGlobal str icase p sticky (2 + String.length str) 0 with
     | [] => None
     | A => Some (Some <$> A)
     end, 0)
  else
    match RegExp.exec str icase p sticky (if sticky then lastIndex else 0) with
    | None => (None, if sticky then 0 else lastIndex)
    | Some r =>
        (Some (Some (RegExp.matched str r) :: RegExp.captures r.2),
         if sticky then RegExp.endIndex r.2 else lastIndex)
    end.

(** [/([A-Z]{2,10}-\d+)/i] *)
Definition defaultTicketPattern : RegExp.t :=
  RegExp.mk
    (RegExp.Group
       (RegExp.Seq
          (RegExp.Quantified (RegExp.CharClass [("A"%char, "Z"%char)]) 2 (Some 10))
          (RegExp.Seq (RegExp.Char "-")
             (RegExp.Quantified RegExp.Digit 1 None))))
    true false false.

(** ** Completions and the store

    A computation either completes normally or throws; the objects it
    mutated stay mutated in both cases.  The store holds the commit
    objects, addressed by reference, the lines written to the console
    and to the plugin's logger, and the [lastIndex] of the RegExp object
    that the caller passed as [ticketPattern].  A commit array is a list
    of references, so two elements of an array may be one object. *)

Inductive JSError : Type :=
| TypeError (message : string).

Definition JSError_toString (e : JSError) : string :=
  match e with TypeError m => "TypeError: " +:+ m end.

Inductive Completion (A : Type) : Type :=
| Normal (value : A)
| Throw (error : JSError).
Arguments Normal {A} value.
Arguments Throw {A} error.

Inductive LinkStyle : Type := inline | newline.

(** [JiraLinkOptions]: every field is optional. *)
Record JiraLinkOptions : Type := {
  jiraBaseUrl : option string;
  ticketPattern : option RegExp.t;
  linkStyle : option LinkStyle;
  debug : option bool
}.

(** The fields of release-please's [PullRequest] and [ConventionalCommit]
    that the plugin reads or writes; the fields it never touches are kept
    in [pullRequest_rest] and [commit_rest]. *)
Record PullRequest (R : Type) : Type := {
  headBranchName : option string;
  pullRequest_rest : R
}.
Arguments headBranchName {R} _.
Arguments pullRequest_rest {R} _.

Record ConventionalCommit (R R' : Type) : Type := {
  sha : string;
  message : string;
  bareMessage : string;
  pullRequest : option (PullRequest R');
  commit_rest : R
}.
Arguments sha {R R'} _.
Arguments message {R R'} _.
Arguments bareMessage {R R'} _.
Arguments pullRequest {R R'} _.
Arguments commit_rest {R R'} _.

(** A reference to a commit object: its address in the store. *)
Abbreviation ref := nat (only parsing).

Inductive LogLevel : Type := log_info | log_error.

(** [ticketPattern_lastIndex] is the property [lastIndex] of the one
    RegExp object a caller hands over in its options.  (The literal that
    stands in for a missing [ticketPattern] is evaluated anew by each
    call and is neither global nor sticky, so it carries nothing from
    one call to the next.) *)
Record Store (R R' : Type) : Type := {
  objects : list (ConventionalCommit R R');
  console : list string;
  logger : list (LogLevel * string);
  ticketPattern_lastIndex : nat
}.
Arguments objects {R R'} _.
Arguments console {R R'} _.
Arguments logger {R R'} _.
Arguments ticketPattern_lastIndex {R R'} _.

(** [extractJiraTicket]: [match ? match[1].toUpperCase() : null], on a
    [ticketPattern] whose [lastIndex] is [lastIndex]; the second
    component is the [lastIndex] the call leaves.  Reading [toUpperCase]
    off an [undefined] element throws a [TypeError], after the match has
    been made. *)
Definition extractJiraTicket (branchName : string) (ticketPattern : RegExp.t)
    (lastIndex : nat) : Completion (option string) * nat :=
  let match_ := String_match branchName ticketPattern lastIndex in
  (match match_.1 with
   | Some match_ =>
       match match_ !! 1 with
       | Some (Some group1) => Normal (Some (JSString.toUpperCase group1))
       | _ => Throw (TypeError "Cannot read properties of undefined (reading 'toUpperCase')")
       end
   | None => Normal None
   end,
   match_.2).

Definition generateJiraLink (ticketId jiraBaseUrl : string) : string :=
  jiraBaseUrl +:+ "/browse/" +:+ ticketId.

Definition LF : string := String "010" EmptyString.

Definition formatJiraLink (ticketId jiraBaseUrl : string) (linkStyle : LinkStyle)
    : string :=
  let link := generateJiraLink ticketId jiraBaseUrl in
  match linkStyle with
  | newline => LF +:+ "  [" +:+ ticketId +:+ "](" +:+ link +:+ ")"
  | inline => " ([" +:+ ticketId +:+ "](" +:+ link +:+ "))"
  end.

(** The pieces of a text, put together. *)
Definition joined (pieces : list string) : string :=
  foldr String.append "" pieces.

Section Engine.
Context {R R' : Type}.

#[local] Abbreviation Commit := (ConventionalCommit R R').
#[local] Abbreviation store := (Store R R').

Definition JS (A : Type) : Type := store → Completion A * store.

#[local] Instance JS_ret : MRet JS := λ A a σ, (Normal a, σ).
#[local] Instance JS_bind : MBind JS := λ A B f m σ,
  match m σ with
  | (Normal a, σ') => f a σ'
  | (Throw e, σ') => (Throw e, σ')
  end.

(** [try { body } catch (error) { handler }] *)
Definition tryCatch {A} (body : JS A) (handler : JSError → JS A) : JS A := λ σ,
  match body σ with
  | (Normal a, σ') => (Normal a, σ')
  | (Throw e, σ') => handler e σ'
  end.

Definition when (b : bool) (m : JS ()) : JS () := if b then m else mret ().

Definition console_log (line : string) : JS () := λ σ,
  (Normal (), {| objects := objects σ; console := console σ ++ [line];
                 logger := logger σ;
                 ticketPattern_lastIndex := ticketPattern_lastIndex σ |}).

Definition logger_log (level : LogLevel) (line : string) : JS () := λ σ,
  (Normal (), {| objects := objects σ; console := console σ;
                 logger := logger σ ++ [(level, line)];
                 ticketPattern_lastIndex := ticketPattern_lastIndex σ |}).

(** The call [extractJiraTicket(branchName, ticketPattern)] on the
    caller's RegExp object: it reads the object's [lastIndex] and leaves
    the new one, also when it throws. *)
Definition call_extractJiraTicket (branchName : string) (ticketPattern : RegExp.t)
    : JS (option string) := λ σ,
  let r := extractJiraTicket branchName ticketPattern (ticketPattern_lastIndex σ) in
  (r.1, {| objects := objects σ; console := console σ; logger := logger σ;
           ticketPattern_lastIndex := r.2 |}).

(** [commit.field]: a slot that holds no object is [undefined], and
    reading a property of it throws. *)
Definition getField {A} (commit : ref) (field : Commit → A) (name : string)
    : JS A := λ σ,
  match objects σ !! commit with
  | Some c => (Normal (field c), σ)
  | None =>
      (Throw (TypeError ("Cannot read properties of undefined (reading '"
                         +:+ name +:+ "')")), σ)
  end.

(** [commit.field = v], written as the update [set] of the object. *)
Definition setField (commit : ref) (set : Commit → Commit) (name : string)
    : JS () := λ σ,
  match objects σ !! commit with
  | Some c =>
      (Normal (), {| objects := <[commit := set c]> (objects σ);
                     console := console σ; logger := logger σ;
                     ticketPattern_lastIndex := ticketPattern_lastIndex σ |})
  | None =>
      (Throw (TypeError ("Cannot set properties of undefined (setting '"
                         +:+ name +:+ "')")), σ)
  end.

Definition set_message (v : string) (c : Commit) : Commit :=
  {| sha := sha c; message := v; bareMessage := bareMessage c;
     pullRequest := pullRequest c; commit_rest := commit_rest c |}.

Definition set_bareMessage (v : string) (c : Commit) : Commit :=
  {| sha := sha c; message := message c; bareMessage := v;
     pullRequest := pullRequest c; commit_rest := commit_rest c |}.

(** [for (const x of xs) body] *)
Fixpoint forOf (xs : list ref) (body : ref → JS ()) : JS () :=
  match xs with
  | [] => mret ()
  | x :: xs' => body x;; forOf xs' body
  end.

(** [commit.pullRequest && commit.pullRequest.headBranchName], when
    truthy. *)
Definition truthyBranchName (pr : option (PullRequest R')) : option string :=
  match pr with
  | Some pr =>
      match headBranchName pr with
      | Some branchName =>
          if JSString.truthy branchName then Some branchName else None
      | None => None
      end
  | None => None
  end.

Definition default_jiraBaseUrl : string := "https://yourcompany.atlassian.net".

(** [x || d] on an optional string: [undefined] and the empty string
    are falsy. *)
Definition string_or (x : option string) (d : string) : string :=
  match x with
  | Some s => if JSString.truthy s then s else d
  | None => d
  end.

Section Loop.
(** The constants that [addJiraLinksToCommits] binds before the loop. *)
Variable jiraBaseUrl_ : string.
Variable ticketPattern_ : RegExp.t.
Variable linkStyle_ : LinkStyle.
Variable debug_ : bool.

(** The body of [for (const commit of commits)]. *)
Definition loopBody (commit : ref) : JS () :=
  pr ← getField commit pullRequest "pullRequest";
  match truthyBranchName pr with
  | Some branchName =>
      ticketId ← call_extractJiraTicket branchName ticketPattern_;
      match ticketId with
      | Some (String _ _ as ticketId) =>
          when debug_
            (console_log ("Found Jira ticket " +:+ ticketId
                          +:+ " in branch: " +:+ branchName));;
          let jiraLink := formatJiraLink ticketId jiraBaseUrl_ linkStyle_ in
          msg ← getField commit message "message";
          (if negb (JSString.includes msg ticketId) then
             setField commit (set_message (msg +:+ jiraLink)) "message";;
             when debug_ (console_log "Added Jira link to commit message")
           else mret ());;
          bare ← getField commit bareMessage "bareMessage";
          if negb (JSString.includes bare ticketId) then
            setField commit (set_bareMessage (bare +:+ jiraLink)) "bareMessage"
          else mret ()
      | _ =>
          when debug_
            (console_log ("No Jira ticket found in branch: " +:+ branchName))
      end
  | None =>
      when debug_
        (sha_ ← getField commit sha "sha";
         console_log ("Commit " +:+ JSString.substring sha_ 0 7
                      +:+ " has no associated pull request"))
  end.
End Loop.

Definition addJiraLinksToCommits (commits : list ref) (options : JiraLinkOptions)
    : JS (list ref) :=
  let jiraBaseUrl := string_or (jiraBaseUrl options) default_jiraBaseUrl in
  let ticketPattern := default defaultTicketPattern (ticketPattern options) in
  let linkStyle := default inline (linkStyle options) in
  let debug := default false (debug options) in
  when debug
    (console_log ("Processing " +:+ pretty (length commits)
                  +:+ " commits for Jira links"));;
  forOf commits (loopBody jiraBaseUrl ticketPattern linkStyle debug);;
  mret commits.

(** The constructor of [JiraLinkPlugin] merges the options with the
    environment variables [JIRA_BASE_URL] and [JIRA_LINK_DEBUG]. *)
Definition JiraLinkPlugin_jiraOptions
    (env_JIRA_BASE_URL env_JIRA_LINK_DEBUG : option string)
    (options : JiraLinkOptions) : JiraLinkOptions :=
  {| jiraBaseUrl :=
       Some (string_or (jiraBaseUrl options)
               (string_or env_JIRA_BASE_URL default_jiraBaseUrl));
     ticketPattern := Some (default defaultTicketPattern (ticketPattern options));
     linkStyle := Some (default inline (linkStyle options));
     debug := Some (default false (debug options)
                    || bool_decide (env_JIRA_LINK_DEBUG = Some "true")) |}.

(** [JiraLinkPlugin.processCommits] *)
Definition processCommits (jiraOptions : JiraLinkOptions) (commits : list ref)
    : JS (list ref) :=
  logger_log log_info ("JiraLinkPlugin processing " +:+ pretty (length commits)
                   +:+ " commits");;
  tryCatch
    (addJiraLinksToCommits commits jiraOptions)
    (λ error_,
       logger_log log_error ("Error in JiraLinkPlugin: " +:+ JSError_toString error_);;
       mret commits).

End Engine.

(** ** The loop body as a function of the commit object

    What one iteration does to the object it visits, what it completes
    with, what it prints and where it leaves [lastIndex];
    [loopBody_lookup] below shows that the loop body computes exactly
    this. *)
Section Iteration.
Context {R R' : Type}.
Variable jiraBaseUrl_ : string.
Variable ticketPattern_ : RegExp.t.
Variable linkStyle_ : LinkStyle.

#[local] Abbreviation Commit := (ConventionalCommit R R').

(** The extractor on the branch name of a commit, when it has one. *)
Definition ticketAt (lastIndex : nat) (c : Commit)
    : Completion (option string) * nat :=
  match truthyBranchName (pullRequest c) with
  | Some branchName => extractJiraTicket branchName ticketPattern_ lastIndex
  | None => (Normal None, lastIndex)
  end.

Definition appendUnlessIncluded (field ticketId jiraLink : string) : string :=
  if JSString.includes field ticketId then field else field +:+ jiraLink.

(** The object after an iteration in which the extractor completed with
    [ticket]. *)
Definition annotateWith (ticket : Completion (option string)) (c : Commit)
    : Commit :=
  match ticket with
  | Normal (Some (String _ _ as ticketId)) =>
      let jiraLink := formatJiraLink ticketId jiraBaseUrl_ linkStyle_ in
      {| sha := sha c;
         message := appendUnlessIncluded (message c) ticketId jiraLink;
         bareMessage := appendUnlessIncluded (bareMessage c) ticketId jiraLink;
         pullRequest := pullRequest c;
         commit_rest := commit_rest c |}
  | _ => c
  end.

Definition outcomeOf (ticket : Completion (option string)) : Completion () :=
  match ticket with
  | Normal _ => Normal ()
  | Throw e => Throw e
  end.

Definition debugLinesWith (debug_ : bool) (ticket : Completion (option string))
    (c : Commit) : list string :=
  if debug_ then
    match truthyBranchName (pullRequest c) with
    | Some branchName =>
        match ticket with
        | Normal (Some (String _ _ as ticketId)) =>
            ("Found Jira ticket " +:+ ticketId +:+ " in branch: " +:+ branchName)
            :: (if JSString.includes (message c) ticketId then []
                else ["Added Jira link to commit message"])
        | Normal _ => ["No Jira ticket found in branch: " +:+ branchName]
        | Throw _ => []
        end
    | None =>
        ["Commit " +:+ JSString.substring (sha c) 0 7
         +:+ " has no associated pull request"]
    end
  else [].

(** The whole loop from [lastIndex]: the completion, the objects and the
    [lastIndex] it leaves. *)
Fixpoint annotateAllFrom (commits : list ref) (objs : list Commit)
    (lastIndex : nat) : Completion () * (list Commit * nat) :=
  match commits with
  | [] => (Normal (), (objs, lastIndex))
  | commit :: commits' =>
      match objs !! commit with
      | Some c =>
          let ticket := ticketAt lastIndex c in
          match ticket.1 with
          | Normal _ =>
              annotateAllFrom commits' (<[commit := annotateWith ticket.1 c]> objs)
                ticket.2
          | Throw e => (Throw e, (objs, ticket.2))
          end
      | None =>
          (Throw (TypeError "Cannot read properties of undefined (reading 'pullRequest')"),
           (objs, lastIndex))
      end
  end.

Fixpoint printedFrom (debug_ : bool) (commits : list ref) (objs : list Commit)
    (lastIndex : nat) : list string :=
  match commits with
  | [] => []
  | commit :: commits' =>
      match objs !! commit with
      | Some c =>
          let ticket := ticketAt lastIndex c in
          debugLinesWith debug_ ticket.1 c ++
          match ticket.1 with
          | Normal _ =>
              printedFrom debug_ commits' (<[commit := annotateWith ticket.1 c]> objs)
                ticket.2
          | Throw _ => []
          end
      | None => []
      end
  end.

(** *** Rules without the sticky flag

    What such a rule extracts does not depend on [lastIndex]
    ([extractJiraTicket_stateless] below), so the ticket is a function of
    the commit and the loop a function of the objects
    ([annotateAllFrom_stateless]). *)

(** The ticket of a commit: the extractor's completion on the branch
    name, when the commit has one. *)
Definition ticketOf (c : Commit) : Completion (option string) :=
  (ticketAt 0 c).1.

Definition annotate (c : Commit) : Commit := annotateWith (ticketOf c) c.

Definition outcome (c : Commit) : Completion () := outcomeOf (ticketOf c).

(** The whole loop on the object list: the completion and the objects
    it leaves. *)
Fixpoint annotateAll (commits : list ref) (objs : list Commit)
    : Completion () * list Commit :=
  match commits with
  | [] => (Normal (), objs)
  | commit :: commits' =>
      match objs !! commit with
      | Some c =>
          match outcome c with
          | Normal _ => annotateAll commits' (<[commit := annotate c]> objs)
          | Throw e => (Throw e, objs)
          end
      | None =>
          (Throw (TypeError "Cannot read properties of undefined (reading 'pullRequest')"),
           objs)
      end
  end.

End Iteration.

(** The constants [addJiraLinksToCommits] binds from its options. *)
Definition jiraBaseUrlOf (options : JiraLinkOptions) : string :=
  string_or (jiraBaseUrl options) default_jiraBaseUrl.
Definition ticketPatternOf (options : JiraLinkOptions) : RegExp.t :=
  default defaultTicketPattern (ticketPattern options).
Definition linkStyleOf (options : JiraLinkOptions) : LinkStyle :=
  default inline (linkStyle options).
Definition debugOf (options : JiraLinkOptions) : bool :=
  default false (debug options).

Definition setDebug (d : option bool) (options : JiraLinkOptions) : JiraLinkOptions :=
  {| jiraBaseUrl := jiraBaseUrl options; ticketPattern := ticketPattern options;
     linkStyle := linkStyle options; debug := d |}.

(** A commit whose pull request has the empty string for branch name,
    with the branch name removed. *)
Definition dropEmptyBranch {R R'} (c : ConventionalCommit R R')
    : ConventionalCommit R R' :=
  match pullRequest c with
  | Some pr =>
      match headBranchName pr with
      | Some EmptyString =>
          {| sha := sha c; message := message c; bareMessage := bareMessage c;
             pullRequest :=
               Some {| headBranchName := None;
                       pullRequest_rest := pullRequest_rest pr |};
             commit_rest := commit_rest c |}
      | _ => c
      end
  | None => c
  end.

Definition dropEmptyBranches {R R'} (σ : Store R R') : Store R R' :=
  {| objects := dropEmptyBranch <$> objects σ; console := console σ;
     logger := logger σ;
     ticketPattern_lastIndex := ticketPattern_lastIndex σ |}.


(** [c'] is [c] as visits of the loop may leave it: nothing but the two
    messages differs, and each of them is the old one followed by links
    of tickets that the rule extracts from the commit's branch name. *)
Definition visited {R R'} (jiraBaseUrl_ : string) (ticketPattern_ : RegExp.t)
    (linkStyle_ : LinkStyle) (c c' : ConventionalCommit R R') : Prop :=
  sha c' = sha c ∧ pullRequest c' = pullRequest c ∧
  commit_rest c' = commit_rest c ∧
  ∃ ticketIds ticketIds',
    message c' =
      message c +:+
      joined ((λ ticketId, formatJiraLink ticketId jiraBaseUrl_ linkStyle_)
              <$> ticketIds) ∧
    bareMessage c' =
      bareMessage c +:+
      joined ((λ ticketId, formatJiraLink ticketId jiraBaseUrl_ linkStyle_)
              <$> ticketIds') ∧
    ∀ ticketId, ticketId ∈ ticketIds ++ ticketIds' →
      ∃ branchName lastIndex,
        truthyBranchName (pullRequest c) = Some branchName ∧
        (extractJiraTicket branchName ticketPattern_ lastIndex).1
        = Normal (Some ticketId).

(** ** Sample inputs *)
Module Examples.

Definition noOptions : JiraLinkOptions :=
  {| jiraBaseUrl := None; ticketPattern := None; linkStyle := None;
     debug := None |}.

Definition star (p : RegExp.Pattern) : RegExp.Pattern := RegExp.Quantified p 0 None.
Definition plus (p : RegExp.Pattern) : RegExp.Pattern := RegExp.Quantified p 1 None.
Definition regexp (p : RegExp.Pattern) : RegExp.t :=
  RegExp.mk p false false false.

Definition digits1 : RegExp.Pattern := plus RegExp.Digit.

(** [/(AB-\d+)|CD-\d+/]: the group takes part in a match of the first
    alternative only. *)
Definition oneSidedGroup : RegExp.t :=
  RegExp.mk
    (RegExp.Disjunction
       (RegExp.Group
          (RegExp.Seq (RegExp.Char "A")
             (RegExp.Seq (RegExp.Char "B") (RegExp.Seq (RegExp.Char "-") digits1))))
       (RegExp.Seq (RegExp.Char "C")
          (RegExp.Seq (RegExp.Char "D") (RegExp.Seq (RegExp.Char "-") digits1))))
    false false false.

(** [/[A-Z]{2,10}-\d+/i]: the default pattern without its parentheses. *)
Definition noGroup : RegExp.t :=
  RegExp.mk
    (RegExp.Seq
       (RegExp.Quantified (RegExp.CharClass [("A"%char, "Z"%char)]) 2 (Some 10))
       (RegExp.Seq (RegExp.Char "-") digits1))
    true false false.

(** [/([A-Z]{2,10}-\d+)/gi]: the default pattern with the [g] flag. *)
Definition globalDefault : RegExp.t :=
  RegExp.mk (RegExp.source defaultTicketPattern) true true false.

(** [/([A-Z]+-\d+)/y]: letters, a hyphen and digits, at [lastIndex]
    only. *)
Definition stickyTicket : RegExp.t :=
  RegExp.mk
    (RegExp.Group
       (RegExp.Seq (plus (RegExp.CharClass [("A"%char, "Z"%char)]))
          (RegExp.Seq (RegExp.Char "-") digits1)))
    false false true.

Definition commit (sha_ msg : string) (branch : option (option string))
    : ConventionalCommit () () :=
  {| sha := sha_; message := msg; bareMessage := msg;
     pullRequest :=
       (λ b, {| headBranchName := b; pullRequest_rest := () |}) <$> branch;
     commit_rest := () |}.

(** A store in which nothing has been printed yet and the caller's
    RegExp object is as it was constructed. *)
Definition store (objs : list (ConventionalCommit () ())) : Store () () :=
  {| objects := objs; console := []; logger := [];
     ticketPattern_lastIndex := 0 |}.

Definition feature : ConventionalCommit () () :=
  commit "3f2a9c1d7e" "feat: add feature" (Some (Some "PLAYG-1008-test-feature")).

Definition unlinked : ConventionalCommit () () :=
  commit "77aa01b" "chore: tidy" None.

Definition emptyBranch : ConventionalCommit () () :=
  commit "5d00c4e" "docs: readme" (Some (Some "")).

(** [bareMessage] names the ticket, [message] does not. *)
Definition halfLinked : ConventionalCommit () () :=
  {| sha := "c0ffee1";
     message := "fix: crash on start";
     bareMessage := "fix: crash on start (QUIKS-674)";
     pullRequest :=
       Some {| headBranchName := Some "quiks-674-crash"; pullRequest_rest := () |};
     commit_rest := () |}.

Definition ab : ConventionalCommit () () :=
  commit "a1b2c3d4" "feat: add feature" (Some (Some "AB-1-feature")).

Definition cd : ConventionalCommit () () :=
  commit "e5f6a7b8" "fix: bug" (Some (Some "CD-5-bugfix")).



Definition prefixed : ConventionalCommit () () :=
  commit "4e5f6a7" "fix: x" (Some (Some "wxyzAB-1")).

Definition cd22 : ConventionalCommit () () :=
  commit "8b9c0d1" "fix: y" (Some (Some "CD-22")).

Definition oneSidedOptions : JiraLinkOptions :=
  {| jiraBaseUrl := None; ticketPattern := Some oneSidedGroup;
     linkStyle := None; debug := None |}.

Definition stickyOptions : JiraLinkOptions :=
  {| jiraBaseUrl := None; ticketPattern := Some stickyTicket;
     linkStyle := None; debug := None |}.



End Examples.

(** ** The plugin object

    [JiraLinkPlugin] keeps the options its constructor resolved; the
    arguments it hands to [ManifestPlugin] are not used by the plugin's
    own code and are left out. *)
Record JiraLinkPlugin : Type := {
  plugin_jiraOptions : JiraLinkOptions
}.

Section Plugin.
Context {R R' : Type}.
#[local] Existing Instance JS_ret.
#[local] Existing Instance JS_bind.

(** [new JiraLinkPlugin(github, targetBranch, repositoryConfig, options)]
    under the environment variables [JIRA_BASE_URL] and
    [JIRA_LINK_DEBUG]. *)
Definition JiraLinkPlugin_new
    (env_JIRA_BASE_URL env_JIRA_LINK_DEBUG : option string)
    (options : JiraLinkOptions) : @JS R R' JiraLinkPlugin :=
  let jiraOptions :=
    JiraLinkPlugin_jiraOptions env_JIRA_BASE_URL env_JIRA_LINK_DEBUG options in
  logger_log log_info
    ("JiraLinkPlugin initialized with base URL: "
     +:+ from_option id "undefined" (jiraBaseUrl jiraOptions));;
  mret {| plugin_jiraOptions := jiraOptions |}.

(** [createJiraLinkPlugin] *)
Definition createJiraLinkPlugin
    (env_JIRA_BASE_URL env_JIRA_LINK_DEBUG : option string)
    (options : JiraLinkOptions) : @JS R R' JiraLinkPlugin :=
  JiraLinkPlugin_new env_JIRA_BASE_URL env_JIRA_LINK_DEBUG options.

(** [createJiraLinkPlugin(..., options).processCommits(commits)] *)
Definition createAndProcess
    (env_JIRA_BASE_URL env_JIRA_LINK_DEBUG : option string)
    (options : JiraLinkOptions) (commits : list ref) : @JS R R' (list ref) :=
  plugin ← createJiraLinkPlugin env_JIRA_BASE_URL env_JIRA_LINK_DEBUG options;
  processCommits (plugin_jiraOptions plugin) commits.

End Plugin.

(** ** What a pattern matches

    The texts a pattern matches, read off the pattern: the relation the
    backtracking matcher is sound for ([compile_sound] below).  A
    quantifier matches a run of pieces, at most [max] of them, and at
    least [min] unless [max] stopped the run first. *)

Definition inSet (icase : bool) (A : list ascii) (ch : ascii) : Prop :=
  ∃ a, a ∈ A ∧ RegExp.Canonicalize icase a = RegExp.Canonicalize icase ch.

Fixpoint Matches (icase : bool) (p : RegExp.Pattern) (s : string) : Prop :=
  match p with
  | RegExp.Empty => s = ""
  | RegExp.Char c => ∃ ch, s = String ch "" ∧ inSet icase [c] ch
  | RegExp.CharClass ranges =>
      ∃ ch, s = String ch "" ∧ inSet icase (ranges ≫= RegExp.rangeChars) ch
  | RegExp.Digit => ∃ ch, s = String ch "" ∧ inSet icase RegExp.digits ch
  | RegExp.Seq p1 p2 =>
      ∃ s1 s2, s = s1 +:+ s2 ∧ Matches icase p1 s1 ∧ Matches icase p2 s2
  | RegExp.Disjunction p1 p2 => Matches icase p1 s ∨ Matches icase p2 s
  | RegExp.Quantified p' min max =>
      ∃ pieces, s = joined pieces ∧ Forall (Matches icase p') pieces ∧
        (∀ k, max = Some k → length pieces ≤ k) ∧
        (min ≤ length pieces ∨ max = Some (length pieces))
  | RegExp.Group p' => Matches icase p' s
  end.

(** The letters, capital and small, and the digits of ASCII. *)
Definition isUpperLetter (c : ascii) : bool :=
  (65 <=? nat_of_ascii c) && (nat_of_ascii c <=? 90).

Definition isLowerLetter (c : ascii) : bool :=
  (97 <=? nat_of_ascii c) && (nat_of_ascii c <=? 122).

Definition isDigit (c : ascii) : bool :=
  (48 <=? nat_of_ascii c) && (nat_of_ascii c <=? 57).

Fixpoint allChars (f : ascii → bool) (s : string) : bool :=
  match s with
  | EmptyString => true
  | String c s' => f c && allChars f s'
  end.

(** Two strings that differ in the case of their ASCII letters only. *)
Definition sameUpToCase (s s' : string) : Prop :=
  JSString.toUpperCase s = JSString.toUpperCase s'.

(** Two match states at the same position, whose captures differ in case
    only. *)
Definition sameCaptures (caps caps' : list (option string)) : Prop :=
  Forall2 (option_Forall2 sameUpToCase) caps caps'.

Definition sameState (x x' : RegExp.MatchState) : Prop :=
  RegExp.endIndex x = RegExp.endIndex x' ∧
  sameCaptures (RegExp.captures x) (RegExp.captures x').

Definition sameResult (r r' : nat * RegExp.MatchState) : Prop :=
  r.1 = r'.1 ∧ sameState r.2 r'.2.

(** The text between two match states. *)
Definition consumed (Input : string) (x y : RegExp.MatchState) : string :=
  JSString.substring Input (RegExp.endIndex x) (RegExp.endIndex y).

(** A capture is [undefined] or a piece of the input. *)
Definition sliceOf (Input : string) (o : option string) : Prop :=
  ∀ s, o = Some s → ∃ a b, s = JSString.substring Input a b.

(** * Properties *)

(** ** Strings *)
Section Strings.
Import JSString.

Lemma append_nil_l (s : string) : "" +:+ s = s.
Proof. reflexivity. Qed.

Lemma append_cons (a : ascii) (s t : string) :
  String a s +:+ t = String a (s +:+ t).
Proof. reflexivity. Qed.

Lemma append_assoc (s t u : string) : (s +:+ t) +:+ u = s +:+ (t +:+ u).
Proof. induction s as [|a s IH]; [done|]. by rewrite !append_cons, IH. Qed.

Lemma append_nil_r (s : string) : s +:+ "" = s.
Proof. induction s as [|a s IH]; [done|]. by rewrite append_cons, IH. Qed.

Lemma startsWith_append (s t : string) : startsWith (s +:+ t) s = true.
Proof.
  induction s as [|a s IH]; [by destruct t|].
  rewrite append_cons; simpl. by rewrite decide_True.
Qed.

Lemma startsWith_append_l (s t u : string) :
  startsWith s t = true → startsWith (s +:+ u) t = true.
Proof.
  revert s. induction t as [|b t IH]; intros [|a s]; try done.
  - by destruct u.
  - rewrite append_cons; simpl. case_decide; [apply IH|done].
Qed.

Lemma includes_startsWith (s t : string) :
  startsWith s t = true → includes s t = true.
Proof. intros H. destruct s; simpl in *; by rewrite H. Qed.

Lemma includes_empty (s : string) : includes s "" = true.
Proof. apply includes_startsWith. by destruct s. Qed.

Lemma includes_append_l (s t u : string) :
  includes s t = true → includes (s +:+ u) t = true.
Proof.
  induction s as [|a s IH].
  - simpl. rewrite orb_false_r. intros H.
    destruct t; [apply includes_empty|done].
  - intros H. rewrite append_cons.
    change (startsWith (String a (s +:+ u)) t || includes (s +:+ u) t = true).
    change (startsWith (String a s) t || includes s t = true) in H.
    apply orb_true_iff in H as [H|H].
    + by rewrite <-append_cons, (startsWith_append_l _ _ _ H).
    + by rewrite (IH H), orb_true_r.
Qed.

Lemma includes_append_r (s t u : string) :
  includes u t = true → includes (s +:+ u) t = true.
Proof.
  intros H. induction s as [|a s IH]; [done|].
  rewrite append_cons; simpl. by rewrite IH, orb_true_r.
Qed.

(** A string occurs in whatever is built around it. *)
Lemma includes_middle (s t u : string) : includes (s +:+ t +:+ u) t = true.
Proof.
  apply includes_append_r, includes_startsWith, startsWith_append.
Qed.

Lemma truthy_toUpperCase (s : string) : truthy (toUpperCase s) = truthy s.
Proof. by destruct s. Qed.

Lemma toUpperCaseChar_idemp (c : ascii) :
  toUpperCaseChar (toUpperCaseChar c) = toUpperCaseChar c.
Proof.
  unfold toUpperCaseChar.
  destruct ((97 <=? nat_of_ascii c) && (nat_of_ascii c <=? 122)) eqn:E.
  - apply andb_true_iff in E as [H1%Nat.leb_le H2%Nat.leb_le].
    rewrite nat_ascii_embedding by lia.
    replace (97 <=? nat_of_ascii c - 32) with false; [done|].
    symmetry. apply Nat.leb_gt. lia.
  - by rewrite E.
Qed.

Lemma toUpperCase_idemp (s : string) :
  toUpperCase (toUpperCase s) = toUpperCase s.
Proof.
  induction s as [|a s IH]; simpl; [done|].
  by rewrite toUpperCaseChar_idemp, IH.
Qed.

End Strings.

(** ** The matcher on known results

    Each line is a result of [String.prototype.match] in a JavaScript
    engine: backtracking out of a greedy quantifier, groups that take no
    part in the match, groups reset at each iteration of a quantifier,
    empty matches, the [i] flag, the [g] flag, and the [y] flag with the
    [lastIndex] it reads and leaves. *)
Section MatcherChecks.
Import RegExp Examples.

Example match_backtrack :
  String_match "aaa" (regexp (Seq (Group (star (Char "a"))) (Char "a"))) 0
  = (Some [Some "aaa"; Some "aa"], 0).
Proof. reflexivity. Qed.

Example match_second_alternative :
  String_match "b" (regexp (Disjunction (Group (Char "a")) (Group (Char "b")))) 0
  = (Some [Some "b"; None; Some "b"], 0).
Proof. reflexivity. Qed.

Example match_group_reset :
  String_match "abab" (regexp (plus (Disjunction (Group (Char "a")) (Char "b")))) 0
  = (Some [Some "abab"; None], 0).
Proof. reflexivity. Qed.

Example match_empty :
  String_match "xyz" (regexp (star (Char "a"))) 0 = (Some [Some ""], 0).
Proof. reflexivity. Qed.

Example match_optional_then_star :
  String_match "aab"
    (regexp (Seq (Group (Quantified (Char "a") 0 (Some 1)))
               (Seq (Group (star (Char "a"))) (Char "b")))) 0
  = (Some [Some "aab"; Some "a"; Some "a"], 0).
Proof. reflexivity. Qed.

Example match_ignoreCase :
  String_match "AbC" (mk (plus (CharClass [("a"%char, "c"%char)])) true false false) 0
  = (Some [Some "AbC"], 0) ∧
  String_match "AbC" (mk (plus (CharClass [("a"%char, "c"%char)])) false false false) 0
  = (Some [Some "b"], 0).
Proof. split; reflexivity. Qed.

Example match_global :
  String_match "a1b22" (mk digits1 false true false) 3
  = (Some [Some "1"; Some "22"], 0) ∧
  String_match "abc" (mk (star (Char "x")) false true false) 0
  = (Some [Some ""; Some ""; Some ""; Some ""], 0) ∧
  String_match "abc" (mk digits1 false true false) 2 = (None, 0).
Proof. repeat split; reflexivity. Qed.

(** Without [g] and [y], [lastIndex] is neither read nor written. *)
Example match_lastIndex_ignored :
  String_match "a1b22" (regexp digits1) 3 = (Some [Some "1"], 3).
Proof. reflexivity. Qed.

Example match_sticky :
  String_match "ab12" (mk digits1 false false true) 0 = (None, 0) ∧
  String_match "ab12" (mk digits1 false false true) 2 = (Some [Some "12"], 4) ∧
  String_match "ab12" (mk digits1 false false true) 3 = (Some [Some "2"], 4) ∧
  String_match "ab12" (mk digits1 false false true) 4 = (None, 0) ∧
  String_match "ab12" (mk digits1 false false true) 7 = (None, 0) ∧
  String_match "ab" (mk (star (Char "x")) false false true) 2 = (Some [Some ""], 2).
Proof. repeat split; reflexivity. Qed.

Example match_global_sticky :
  String_match "12ab34" (mk digits1 false true true) 4 = (Some [Some "12"], 0) ∧
  String_match "ab34" (mk digits1 false true true) 2 = (None, 0).
Proof. repeat split; reflexivity. Qed.

Example includes_checks :
  JSString.includes "feat: x (AB-1)" "AB-1" = true ∧
  JSString.includes "abc" "" = true ∧
  JSString.includes "" "" = true ∧
  JSString.includes "abc" "abcd" = false ∧
  JSString.includes "abc" "ac" = false.
Proof. repeat split; reflexivity. Qed.

End MatcherChecks.

(** ** The matcher always has enough fuel

    [RepeatMatcher] and [matchGlobal] recurse on a counter that
    [compile] and [String_match] set from the length of the input.  A
    matcher never moves backwards and never past the end of the input,
    so the counter they are given is never exhausted: any larger one
    gives the same result. *)
Section Fuel.
Import RegExp.
Variable Input : string.
Variable icase : bool.

Lemma advances_refl x : advances Input x x.
Proof. split; auto. Qed.

Lemma advances_trans x y z : advances Input x y → advances Input y z → advances Input x z.
Proof. unfold advances. intros [? [?|?]] [? [?|?]]; split; try lia; auto with lia. Qed.

Lemma get_Some_lt (s : string) (n : nat) (ch : ascii) :
  String.get n s = Some ch → n < String.length s.
Proof.
  revert n. induction s as [|a s IH]; intros [|n]; simpl; try done; [lia|].
  intros H%IH. lia.
Qed.

Lemma CharacterSetMatcher_progressive A :
  progressive Input (CharacterSetMatcher Input icase A).
Proof.
  intros x y. unfold CharacterSetMatcher.
  destruct (String.get (endIndex x) Input) as [ch|] eqn:Hget; [|by intros ?%elem_of_nil].
  apply get_Some_lt in Hget.
  destruct (existsb _ A); [|by intros ?%elem_of_nil].
  intros ->%list_elem_of_singleton. split; simpl; [lia|right; lia].
Qed.

Lemma RepeatMatcher_progressive fuel m min max parenIndex parenCount :
  progressive Input m →
  progressive Input (RepeatMatcher fuel m min max parenIndex parenCount).
Proof.
  intros Hm. revert min max.
  induction fuel as [|fuel IH]; intros min max x y; simpl.
  { by intros ?%elem_of_nil. }
  case_bool_decide.
  { intros ->%list_elem_of_singleton. apply advances_refl. }
  set (xr := mkState (endIndex x) (clearCaptures parenIndex parenCount (captures x))).
  assert (Hz : ∀ y,
    y ∈ m xr ≫= (λ y0,
      if (min =? 0) && (endIndex y0 =? endIndex x) then []
      else RepeatMatcher fuel m (pred min) (pred <$> max) parenIndex parenCount y0) →
    advances Input x y).
  { intros y' (y0 & Hy' & Hy0)%list_elem_of_bind.
    apply Hm in Hy0.
    destruct ((min =? 0) && (endIndex y0 =? endIndex x)); [by apply elem_of_nil in Hy'|].
    apply IH in Hy'. apply (advances_trans _ y0); [|done].
    exact Hy0. }
  destruct (min =? 0); [|apply Hz].
  intros [Hy| ->%list_elem_of_singleton]%elem_of_app; [by apply Hz|apply advances_refl].
Qed.

Lemma compile_progressive p parenIndex :
  progressive Input (compile Input icase p parenIndex).
Proof.
  revert parenIndex.
  induction p as [|c|ranges| |p1 IH1 p2 IH2|p1 IH1 p2 IH2|p IH min max|p IH];
    intros parenIndex; cbn [compile].
  - intros x y ->%list_elem_of_singleton. apply advances_refl.
  - apply CharacterSetMatcher_progressive.
  - apply CharacterSetMatcher_progressive.
  - apply CharacterSetMatcher_progressive.
  - intros x z (y & Hz & Hy)%list_elem_of_bind.
    eapply advances_trans; [by eapply IH1|by eapply IH2].
  - intros x y [H|H]%elem_of_app; [by eapply IH1|by eapply IH2].
  - intros x y. by apply RepeatMatcher_progressive.
  - intros x y (y0 & -> & Hy0)%list_elem_of_fmap. by apply IH in Hy0.
Qed.

Lemma bind_ext_elem {A B} (f g : A → list B) (l : list A) :
  (∀ x, x ∈ l → f x = g x) → l ≫= f = l ≫= g.
Proof.
  induction l as [|a l IH]; intros H; [done|].
  rewrite !bind_cons, H, IH; [done| |by apply elem_of_cons; left].
  intros x Hx. apply H. by apply elem_of_cons; right.
Qed.

(** Past [min] plus the number of characters left, fuel makes no
    difference. *)
Lemma RepeatMatcher_fuel fuel fuel' m min max parenIndex parenCount x :
  progressive Input m →
  min + (String.length Input - endIndex x) < fuel →
  min + (String.length Input - endIndex x) < fuel' →
  RepeatMatcher fuel m min max parenIndex parenCount x
  = RepeatMatcher fuel' m min max parenIndex parenCount x.
Proof.
  intros Hm. revert fuel' min max x.
  induction fuel as [|fuel IH]; intros [|fuel'] min max x Hf Hf'; try lia.
  simpl. case_bool_decide; [done|].
  set (xr := mkState (endIndex x) (clearCaptures parenIndex parenCount (captures x))).
  assert (Hz :
    m xr ≫= (λ y,
      if (min =? 0) && (endIndex y =? endIndex x) then []
      else RepeatMatcher fuel m (pred min) (pred <$> max) parenIndex parenCount y)
    = m xr ≫= (λ y,
      if (min =? 0) && (endIndex y =? endIndex x) then []
      else RepeatMatcher fuel' m (pred min) (pred <$> max) parenIndex parenCount y)).
  { apply bind_ext_elem. intros y [Hle Hy]%Hm. simpl in Hle, Hy.
    destruct (min =? 0) eqn:Hmin; simpl.
    - apply Nat.eqb_eq in Hmin as ->.
      destruct (endIndex y =? endIndex x) eqn:He; [done|].
      apply Nat.eqb_neq in He. apply IH; simpl in *; lia.
    - apply Nat.eqb_neq in Hmin. apply IH; lia. }
  by rewrite Hz.
Qed.

(** The fuel [compile] gives to a quantifier is enough. *)
Lemma compile_Quantified_fuel p min max parenIndex x fuel :
  min + (String.length Input - endIndex x) < fuel →
  compile Input icase (Quantified p min max) parenIndex x
  = RepeatMatcher fuel (compile Input icase p parenIndex) min max
      parenIndex (countLeftCapturingParens p) x.
Proof.
  intros Hf. cbn [compile]. apply RepeatMatcher_fuel; [apply compile_progressive|lia|done].
Qed.

Lemma search_Some p n i r :
  search Input icase p n i = Some r →
  i ≤ r.1 ∧ r.1 < i + n ∧ r.1 ≤ endIndex r.2 ∧
  (endIndex r.2 = r.1 ∨ endIndex r.2 ≤ String.length Input).
Proof.
  revert i. induction n as [|n IH]; intros i; simpl; [done|].
  unfold matchAt.
  destruct (head _) as [y|] eqn:Hhead.
  - intros Heq. injection Heq as <-.
    apply head_Some_elem_of, compile_progressive in Hhead.
    destruct Hhead as [H1 H2]; simpl in *. repeat split; by try lia.
  - intros H%IH. intuition lia.
Qed.

Lemma positions_le sticky lastIndex :
  positions Input sticky lastIndex ≤ S (String.length Input) - lastIndex.
Proof. unfold positions. destruct sticky; lia. Qed.

Lemma exec_Some p sticky lastIndex r :
  exec Input icase p sticky lastIndex = Some r →
  lastIndex ≤ r.1 ∧ r.1 ≤ String.length Input ∧ r.1 ≤ endIndex r.2 ∧
  (endIndex r.2 = r.1 ∨ endIndex r.2 ≤ String.length Input).
Proof.
  unfold exec. intros H%search_Some.
  assert (Hle := positions_le sticky lastIndex). intuition lia.
Qed.

(** A sticky expression matches at [lastIndex] or not at all. *)
Lemma exec_sticky_Some p lastIndex r :
  exec Input icase p true lastIndex = Some r → r.1 = lastIndex.
Proof.
  unfold exec, positions. intros H%search_Some.
  destruct H as (H1 & H2 & _). lia.
Qed.

Lemma truthy_substring (s : string) (i n : nat) :
  JSString.truthy (String.substring i n s) = true → 0 < n.
Proof.
  revert i. induction s as [|a s IH]; intros [|i]; destruct n; simpl; try done; try lia.
  apply IH.
Qed.

(** The loop of a global match stops before its counter does. *)
Lemma matchGlobal_fuel p sticky fuel fuel' lastIndex :
  S (String.length Input) - lastIndex < fuel →
  S (String.length Input) - lastIndex < fuel' →
  matchGlobal Input icase p sticky fuel lastIndex
  = matchGlobal Input icase p sticky fuel' lastIndex.
Proof.
  revert fuel' lastIndex.
  induction fuel as [|fuel IH]; intros [|fuel'] lastIndex Hf Hf'; try lia.
  simpl. destruct (exec Input icase p sticky lastIndex) as [r|] eqn:Hr; [|done].
  f_equal. apply exec_Some in Hr as (H1 & H2 & H3 & H4).
  destruct (JSString.truthy (matched Input r)) eqn:Ht.
  - apply truthy_substring in Ht. apply IH; lia.
  - apply IH; lia.
Qed.

End Fuel.

Lemma formatJiraLink_includes (ticketId jiraBaseUrl : string) (linkStyle : LinkStyle) :
  JSString.includes (formatJiraLink ticketId jiraBaseUrl linkStyle) ticketId = true.
Proof.
  unfold formatJiraLink. destruct linkStyle.
  - apply (includes_middle " (["). 
  - rewrite <-append_assoc. apply includes_middle.
Qed.


(** ** The extractor and the state of the rule *)

(** A rule without the sticky flag extracts the same whatever
    [lastIndex] is. *)
Lemma extractJiraTicket_stateless branchName rule lastIndex lastIndex' :
  RegExp.sticky rule = false →
  (extractJiraTicket branchName rule lastIndex).1
  = (extractJiraTicket branchName rule lastIndex').1.
Proof.
  intros Hs. unfold extractJiraTicket, String_match. rewrite Hs.
  destruct (RegExp.global rule); [done|]. by destruct (RegExp.exec _ _ _ _ _).
Qed.

(** A rule that is neither global nor sticky leaves [lastIndex] alone; a
    global one leaves 0. *)
Lemma extractJiraTicket_lastIndex branchName rule lastIndex :
  RegExp.sticky rule = false →
  (extractJiraTicket branchName rule lastIndex).2
  = if RegExp.global rule then 0 else lastIndex.
Proof.
  intros Hs. unfold extractJiraTicket, String_match. rewrite Hs.
  destruct (RegExp.global rule); [done|]. by destruct (RegExp.exec _ _ _ _ _).
Qed.

Section LoopBody.
Context {R R' : Type}.
Implicit Types (c : ConventionalCommit R R') (σ : Store R R').
Implicit Types (objs : list (ConventionalCommit R R')).
Variable base : string.
Variable pat : RegExp.t.
Variable style : LinkStyle.
#[local] Opaque extractJiraTicket.

Lemma store_eta σ :
  {| objects := objects σ; console := console σ; logger := logger σ;
     ticketPattern_lastIndex := ticketPattern_lastIndex σ |} = σ.
Proof. by destruct σ. Qed.

Lemma loopBody_lookup dbg commit σ c :
  objects σ !! commit = Some c →
  let ticket := ticketAt pat (ticketPattern_lastIndex σ) c in
  loopBody base pat style dbg commit σ =
    (outcomeOf ticket.1,
     {| objects := <[commit := annotateWith base style ticket.1 c]> (objects σ);
        console := console σ ++ debugLinesWith dbg ticket.1 c;
        logger := logger σ;
        ticketPattern_lastIndex := ticket.2 |}).
Proof.
  intros Hc ticket. subst ticket. destruct σ as [objs con lg li]; simpl in *.
  assert (Hlt : commit < length objs) by (by eapply lookup_lt_Some).
  destruct c as [sha_ msg bare pr rest].
  unfold loopBody, outcomeOf, annotateWith, debugLinesWith, ticketAt,
    appendUnlessIncluded.
  unfold mbind, JS_bind, mret, JS_ret, getField, setField, call_extractJiraTicket,
    when, console_log; simpl.
  rewrite Hc; simpl.
  destruct (truthyBranchName pr) as [b|]; simpl;
    [destruct (extractJiraTicket b pat li) as [[[[|a id]|]|e] li']; simpl|];
    destruct dbg; simpl; rewrite ?Hc; simpl;
    try (destruct (JSString.includes msg (String a id)) eqn:Hm; simpl);
    try (destruct (JSString.includes bare (String a id)) eqn:Hb; simpl);
    repeat (rewrite ?Hc, ?Hm, ?Hb, ?list_lookup_insert_eq,
              ?list_insert_insert_eq by done; simpl);
    rewrite <-?(assoc_L (++)), ?app_nil_r; simpl;
    unfold mret, JS_ret; by rewrite ?list_insert_id by exact Hc.
Qed.

Lemma loopBody_undefined dbg commit σ :
  objects σ !! commit = None →
  loopBody base pat style dbg commit σ =
    (Throw (TypeError "Cannot read properties of undefined (reading 'pullRequest')"),
     σ).
Proof.
  intros Hc. unfold loopBody, mbind, JS_bind, getField. by rewrite Hc.
Qed.

(** The loop is [annotateAllFrom] on the objects and on [lastIndex], and
    [printedFrom] on the console. *)
Lemma forOf_loopBody dbg commits σ :
  let r := annotateAllFrom base pat style commits (objects σ)
             (ticketPattern_lastIndex σ) in
  forOf commits (loopBody base pat style dbg) σ =
    (r.1,
     {| objects := r.2.1;
        console :=
          console σ ++
          printedFrom base pat style dbg commits (objects σ)
            (ticketPattern_lastIndex σ);
        logger := logger σ;
        ticketPattern_lastIndex := r.2.2 |}).
Proof.
  revert σ. induction commits as [|commit commits IH]; intros σ; simpl.
  - by rewrite app_nil_r, store_eta.
  - unfold mbind, JS_bind.
    destruct (objects σ !! commit) as [c|] eqn:Hc.
    + rewrite (loopBody_lookup _ _ _ _ Hc). cbv zeta.
      destruct (ticketAt pat (ticketPattern_lastIndex σ) c) as [[t|e] li'] eqn:Ht;
        simpl.
      * rewrite IH; simpl. by rewrite (assoc_L (++)).
      * by rewrite app_nil_r, list_insert_id.
    + rewrite (loopBody_undefined _ _ _ Hc). simpl.
      by rewrite app_nil_r, store_eta.
Qed.

(** *** One visit *)

Lemma annotateWith_frame ticket c :
  sha (annotateWith base style ticket c) = sha c ∧
  pullRequest (annotateWith base style ticket c) = pullRequest c ∧
  commit_rest (annotateWith base style ticket c) = commit_rest c.
Proof. unfold annotateWith. by destruct ticket as [[[|a id]|]|e]. Qed.

Lemma ticketAt_pullRequest lastIndex c c' :
  pullRequest c' = pullRequest c → ticketAt pat lastIndex c' = ticketAt pat lastIndex c.
Proof. unfold ticketAt. by intros ->. Qed.

Lemma ticketAt_annotateWith lastIndex ticket c :
  ticketAt pat lastIndex (annotateWith base style ticket c) = ticketAt pat lastIndex c.
Proof. apply ticketAt_pullRequest, annotateWith_frame. Qed.

Lemma ticketAt_no_branch lastIndex c :
  truthyBranchName (pullRequest c) = None →
  ticketAt pat lastIndex c = (Normal None, lastIndex).
Proof. unfold ticketAt. by intros ->. Qed.

Lemma joined_snoc pieces piece : joined (pieces ++ [piece]) = joined pieces +:+ piece.
Proof.
  induction pieces as [|p pieces IH]; simpl.
  - apply append_nil_r.
  - by rewrite IH, append_assoc.
Qed.

Lemma visited_refl c : visited base pat style c c.
Proof.
  repeat split. exists [], []. simpl. rewrite !append_nil_r.
  repeat split. by intros ticketId ?%elem_of_nil.
Qed.

(** One more visit, from any [lastIndex]. *)
Lemma visited_step lastIndex c c' :
  visited base pat style c c' →
  visited base pat style c
    (annotateWith base style (ticketAt pat lastIndex c').1 c').
Proof.
  intros (Hsha & Hpr & Hrest & ids & ids' & Hmsg & Hbare & Hids).
  destruct (annotateWith_frame (ticketAt pat lastIndex c').1 c') as (Hs & Hp & Hr).
  split; [congruence|]. split; [congruence|]. split; [congruence|].
  rewrite (ticketAt_pullRequest _ _ _ Hpr).
  unfold annotateWith, ticketAt.
  destruct (truthyBranchName (pullRequest c)) as [b|] eqn:Hb; [|by exists ids, ids'].
  destruct (extractJiraTicket b pat lastIndex).1 as [[[|a id]|]|e] eqn:Ht;
    try by exists ids, ids'.
  simpl. unfold appendUnlessIncluded.
  assert (Hnew : ∃ branchName lastIndex0,
            Some b = Some branchName ∧
            (extractJiraTicket branchName pat lastIndex0).1 = Normal (Some (String a id)))
    by (by exists b, lastIndex).
  exists (if JSString.includes (message c') (String a id) then ids
          else ids ++ [String a id]),
         (if JSString.includes (bareMessage c') (String a id) then ids'
          else ids' ++ [String a id]).
  repeat split.
  - destruct (JSString.includes (message c') _); [done|].
    rewrite fmap_app. cbn [fmap list_fmap].
    by rewrite joined_snoc, <-append_assoc, <-Hmsg.
  - destruct (JSString.includes (bareMessage c') _); [done|].
    rewrite fmap_app. cbn [fmap list_fmap].
    by rewrite joined_snoc, <-append_assoc, <-Hbare.
  - intros ticketId Hin.
    assert (Hcase : ticketId ∈ ids ++ ids' ∨ ticketId = String a id).
    { destruct (JSString.includes (message c') _),
        (JSString.includes (bareMessage c') _);
        repeat (rewrite ?elem_of_app, ?list_elem_of_singleton in Hin);
        rewrite ?elem_of_app; tauto. }
    destruct Hcase as [Hold| ->]; [by apply Hids|done].
Qed.

(** *** The whole loop *)


(** Every object ends up as visits may leave it. *)
Lemma annotateAllFrom_lookup commits objs lastIndex l c0 c :
  visited base pat style c0 c → objs !! l = Some c →
  ∃ c', (annotateAllFrom base pat style commits objs lastIndex).2.1 !! l = Some c' ∧
        visited base pat style c0 c'.
Proof.
  revert objs lastIndex c.
  induction commits as [|commit commits IH]; intros objs lastIndex c Hv Hl; simpl.
  { eauto. }
  destruct (objs !! commit) as [c1|] eqn:Hc; [|by eauto].
  destruct (ticketAt pat lastIndex c1) as [[t|e] li'] eqn:Ht; simpl; [|by eauto].
  destruct (decide (commit = l)) as [->|Hne].
  - assert (c1 = c) as -> by congruence.
    assert (Hv' := visited_step lastIndex _ _ Hv). rewrite Ht in Hv'.
    eapply IH; [exact Hv'|]. apply list_lookup_insert_eq. by eapply lookup_lt_Some.
  - eapply IH; [done|]. by rewrite list_lookup_insert_ne.
Qed.



(** The loop on an array in two parts. *)
Lemma annotateAllFrom_app commits1 commits2 objs lastIndex :
  annotateAllFrom base pat style (commits1 ++ commits2) objs lastIndex =
    match annotateAllFrom base pat style commits1 objs lastIndex with
    | (Normal _, (objs1, lastIndex1)) =>
        annotateAllFrom base pat style commits2 objs1 lastIndex1
    | (Throw e, rest) => (Throw e, rest)
    end.
Proof.
  revert objs lastIndex.
  induction commits1 as [|x commits1 IH]; intros objs lastIndex; simpl; [done|].
  destruct (objs !! x) as [c|]; [|done].
  by destruct (ticketAt pat lastIndex c).1.
Qed.

(** A loop that throws leaves what the loop on the commits before the
    failing one leaves, but for the [lastIndex] that the failing call
    wrote. *)
Lemma annotateAllFrom_Throw_split commits objs lastIndex e :
  (annotateAllFrom base pat style commits objs lastIndex).1 = Throw e →
  ∃ pre bad post,
    let r := annotateAllFrom base pat style pre objs lastIndex in
    commits = pre ++ bad :: post ∧
    r.1 = Normal () ∧
    (annotateAllFrom base pat style commits objs lastIndex).2.1 = r.2.1 ∧
    (r.2.1 !! bad = None ∨
     ∃ c, r.2.1 !! bad = Some c ∧ (ticketAt pat r.2.2 c).1 = Throw e).
Proof.
  revert objs lastIndex.
  induction commits as [|x commits IH]; intros objs lastIndex Hr;
    cbn [annotateAllFrom] in *.
  { done. }
  destruct (objs !! x) as [c|] eqn:Hx.
  - destruct (ticketAt pat lastIndex c) as [[t|e0] li'] eqn:Ht; cbn [fst snd] in *.
    + destruct (IH _ _ Hr) as (pre & bad & post & -> & Hn & Hobj & Hbad).
      exists (x :: pre), bad, post. simpl. rewrite Hx, Ht. done.
    + exists [], x, commits. simpl. repeat split; try done.
      right. exists c. split; [done|]. rewrite Ht. simpl. congruence.
  - exists [], x, commits. simpl. repeat split; try done. by left.
Qed.

(** A loop completes when every slot of the array holds a commit and the
    extractor throws on no branch name. *)
Lemma annotateAllFrom_Normal commits objs lastIndex :
  (∀ branchName lastIndex',
     ∃ ticketId, (extractJiraTicket branchName pat lastIndex').1 = Normal ticketId) →
  Forall (λ commit, is_Some (objs !! commit)) commits →
  (annotateAllFrom base pat style commits objs lastIndex).1 = Normal ().
Proof.
  intros Hpat. revert objs lastIndex.
  induction commits as [|x commits IH]; intros objs lastIndex Hall; simpl; [done|].
  apply Forall_cons in Hall as [[c Hc] Hall]. rewrite Hc.
  assert (Ht : ∃ ticketId, (ticketAt pat lastIndex c).1 = Normal ticketId).
  { unfold ticketAt. destruct (truthyBranchName (pullRequest c)) as [b|]; [|by eexists].
    apply Hpat. }
  destruct Ht as [t ->]. apply IH.
  eapply Forall_impl; [done|]. intros l [c' Hc'].
  apply lookup_lt_is_Some. rewrite length_insert. by eapply lookup_lt_Some.
Qed.

Lemma printedFrom_false commits objs lastIndex :
  printedFrom base pat style false commits objs lastIndex = [].
Proof.
  revert objs lastIndex.
  induction commits as [|x commits IH]; intros objs lastIndex; simpl; [done|].
  destruct (objs !! x) as [c0|]; [|done].
  destruct (ticketAt pat lastIndex c0).1; [|done]. apply IH.
Qed.

Lemma debugLinesWith_nonempty ticket c :
  outcomeOf ticket = Normal () → 1 ≤ length (debugLinesWith true ticket c).
Proof.
  unfold debugLinesWith, outcomeOf.
  destruct (truthyBranchName (pullRequest c)) as [b|]; [|simpl; lia].
  destruct ticket as [[[|a id]|]|]; simpl; try lia. done.
Qed.

Lemma printedFrom_length commits objs lastIndex :
  (annotateAllFrom base pat style commits objs lastIndex).1 = Normal () →
  length commits ≤ length (printedFrom base pat style true commits objs lastIndex).
Proof.
  revert objs lastIndex. induction commits as [|x commits IH]; intros objs lastIndex;
    cbn [annotateAllFrom printedFrom]; [done|].
  destruct (objs !! x) as [c0|]; [|done]. cbv zeta.
  destruct (ticketAt pat lastIndex c0).1 as [t|] eqn:Ht; [|done].
  intros Hn%IH. rewrite length_app.
  assert (H := debugLinesWith_nonempty (Normal t) c0 eq_refl).
  change (length (x :: commits)) with (S (length commits)). lia.
Qed.

(** *** A commit whose ticket does not depend on the state of the rule *)

Lemma appendUnlessIncluded_includes field ticketId :
  JSString.includes
    (appendUnlessIncluded field ticketId (formatJiraLink ticketId base style))
    ticketId = true.
Proof.
  unfold appendUnlessIncluded.
  destruct (JSString.includes field ticketId) eqn:E; [done|].
  apply includes_append_r, formatJiraLink_includes.
Qed.

Lemma appendUnlessIncluded_idemp field ticketId :
  let jiraLink := formatJiraLink ticketId base style in
  appendUnlessIncluded (appendUnlessIncluded field ticketId jiraLink) ticketId jiraLink
  = appendUnlessIncluded field ticketId jiraLink.
Proof.
  intros jiraLink. unfold appendUnlessIncluded at 1.
  by rewrite appendUnlessIncluded_includes.
Qed.

(** A second visit that extracts the same ticket changes nothing. *)
Lemma annotateWith_idemp ticket c :
  annotateWith base style ticket (annotateWith base style ticket c)
  = annotateWith base style ticket c.
Proof.
  unfold annotateWith. destruct ticket as [[[|a id]|]|e]; try done.
  simpl. by rewrite !appendUnlessIncluded_idemp.
Qed.

(** Once annotated, such a commit stays as it is. *)
Lemma annotateAllFrom_lookup_annotated commits objs lastIndex l c ticket :
  (∀ lastIndex', (ticketAt pat lastIndex' c).1 = ticket) →
  objs !! l = Some (annotateWith base style ticket c) →
  (annotateAllFrom base pat style commits objs lastIndex).2.1 !! l
  = Some (annotateWith base style ticket c).
Proof.
  intros Hfix. revert objs lastIndex.
  induction commits as [|commit commits IH]; intros objs lastIndex Hl; simpl; [done|].
  destruct (objs !! commit) as [c1|] eqn:Hc; [|done].
  destruct (decide (commit = l)) as [->|Hne].
  - assert (c1 = annotateWith base style ticket c) as -> by congruence.
    rewrite ticketAt_annotateWith.
    rewrite (surjective_pairing (ticketAt pat lastIndex c)), Hfix. cbn [fst snd].
    destruct ticket as [t|e]; [|done].
    apply IH. rewrite annotateWith_idemp.
    apply list_lookup_insert_eq. by eapply lookup_lt_Some.
  - destruct (ticketAt pat lastIndex c1).1; [|done].
    apply IH. by rewrite list_lookup_insert_ne.
Qed.

(** Such a commit ends up as it was or annotated, and annotated when the
    array refers to it and the loop completed. *)
Lemma annotateAllFrom_lookup_fixed commits objs lastIndex l c ticket :
  (∀ lastIndex', (ticketAt pat lastIndex' c).1 = ticket) →
  objs !! l = Some c →
  let r := annotateAllFrom base pat style commits objs lastIndex in
  (r.2.1 !! l = Some c ∨ r.2.1 !! l = Some (annotateWith base style ticket c)) ∧
  (r.1 = Normal () → l ∈ commits →
   r.2.1 !! l = Some (annotateWith base style ticket c)).
Proof.
  intros Hfix. revert objs lastIndex.
  induction commits as [|commit commits IH]; intros objs lastIndex Hl; simpl.
  { split; [by left|]. by intros _ ?%elem_of_nil. }
  destruct (objs !! commit) as [c1|] eqn:Hc; [|by split; [left|]].
  destruct (decide (commit = l)) as [->|Hne].
  - assert (c1 = c) as -> by congruence.
    rewrite (surjective_pairing (ticketAt pat lastIndex c)), Hfix. cbn [fst snd].
    destruct ticket as [t|e]; [|by split; [left|]].
    assert (H : (annotateAllFrom base pat style commits
                   (<[l := annotateWith base style (Normal t) c]> objs)
                   (ticketAt pat lastIndex c).2).2.1 !! l
                = Some (annotateWith base style (Normal t) c)).
    { apply annotateAllFrom_lookup_annotated; [done|].
      apply list_lookup_insert_eq. by eapply lookup_lt_Some. }
    split; [by right|done].
  - destruct (ticketAt pat lastIndex c1).1 as [t1|e1]; [|by split; [left|]].
    destruct (IH (<[commit := annotateWith base style (Normal t1) c1]> objs)
                (ticketAt pat lastIndex c1).2) as [IH1 IH2].
    { by rewrite list_lookup_insert_ne. }
    split; [done|]. intros Hn [?|Hin]%elem_of_cons; [done|]. by apply IH2.
Qed.

(** *** Rules without the sticky flag *)

Lemma ticketAt_stateless lastIndex c :
  RegExp.sticky pat = false → (ticketAt pat lastIndex c).1 = ticketOf pat c.
Proof.
  intros Hs. unfold ticketOf, ticketAt.
  destruct (truthyBranchName (pullRequest c)); [|done].
  by apply extractJiraTicket_stateless.
Qed.

(** For such a rule the loop is [annotateAll] on the objects, from every
    [lastIndex]. *)
Lemma annotateAllFrom_stateless commits objs lastIndex :
  RegExp.sticky pat = false →
  (annotateAllFrom base pat style commits objs lastIndex).1
  = (annotateAll base pat style commits objs).1 ∧
  (annotateAllFrom base pat style commits objs lastIndex).2.1
  = (annotateAll base pat style commits objs).2.
Proof.
  intros Hs. revert objs lastIndex.
  induction commits as [|x commits IH]; intros objs lastIndex; simpl; [done|].
  destruct (objs !! x) as [c|]; [|done].
  unfold outcome, annotate. rewrite (ticketAt_stateless lastIndex c Hs).
  destruct (ticketOf pat c); simpl; [apply IH|done].
Qed.

(** An iteration that throws has not touched the object: the extractor
    runs before the first assignment. *)
Lemma outcome_throw_annotate c e :
  outcome pat c = Throw e → annotate base pat style c = c.
Proof. unfold outcome, annotate, outcomeOf, annotateWith. by destruct (ticketOf pat c). Qed.

(** *** One iteration, for a rule without the sticky flag *)

Lemma ticketOf_annotate c : ticketOf pat (annotate base pat style c) = ticketOf pat c.
Proof. unfold ticketOf, annotate. by rewrite ticketAt_annotateWith. Qed.

Lemma outcome_annotate c : outcome pat (annotate base pat style c) = outcome pat c.
Proof. unfold outcome. by rewrite ticketOf_annotate. Qed.

(** Visiting an object a second time changes nothing. *)
Lemma annotate_idemp c :
  annotate base pat style (annotate base pat style c) = annotate base pat style c.
Proof.
  unfold annotate at 1. rewrite ticketOf_annotate. apply annotateWith_idemp.
Qed.

(** *** The whole loop, for a rule without the sticky flag *)

Lemma annotateAll_length commits objs :
  length (annotateAll base pat style commits objs).2 = length objs.
Proof.
  revert objs. induction commits as [|commit commits IH]; intros objs; simpl; [done|].
  destruct (objs !! commit) as [c|]; [|done].
  destruct (outcome pat c); [|done]. by rewrite IH, length_insert.
Qed.

(** Every object ends up either as it was or annotated. *)
Lemma annotateAll_lookup commits objs l c :
  objs !! l = Some c →
  (annotateAll base pat style commits objs).2 !! l = Some c ∨
  (annotateAll base pat style commits objs).2 !! l = Some (annotate base pat style c).
Proof.
  revert objs c. induction commits as [|commit commits IH]; intros objs c Hl; simpl.
  { by left. }
  destruct (objs !! commit) as [c0|] eqn:Hc; [|by left].
  destruct (outcome pat c0); [|by left].
  destruct (decide (commit = l)) as [->|Hne].
  - assert (c0 = c) as -> by congruence.
    destruct (IH (<[l := annotate base pat style c]> objs) (annotate base pat style c))
      as [H|H].
    + apply list_lookup_insert_eq. by eapply lookup_lt_Some.
    + by right.
    + right. by rewrite annotate_idemp in H.
  - apply IH. by rewrite list_lookup_insert_ne.
Qed.

Lemma annotateAll_lookup_None commits objs l :
  objs !! l = None → (annotateAll base pat style commits objs).2 !! l = None.
Proof.
  intros H%lookup_ge_None. apply lookup_ge_None. by rewrite annotateAll_length.
Qed.

(** An object the array does not refer to is left alone. *)
Lemma annotateAll_lookup_notin commits objs l :
  l ∉ commits → (annotateAll base pat style commits objs).2 !! l = objs !! l.
Proof.
  revert objs. induction commits as [|commit commits IH]; intros objs Hl; simpl; [done|].
  apply not_elem_of_cons in Hl as [Hne Hl].
  destruct (objs !! commit) as [c0|] eqn:Hc; [|done].
  destruct (outcome pat c0); [|done].
  rewrite IH by done. by rewrite list_lookup_insert_ne.
Qed.

(** After a loop that completed, every object of the array is annotated. *)
Lemma annotateAll_Normal commits objs l c :
  (annotateAll base pat style commits objs).1 = Normal () →
  l ∈ commits → objs !! l = Some c →
  (annotateAll base pat style commits objs).2 !! l = Some (annotate base pat style c).
Proof.
  revert objs c. induction commits as [|commit commits IH]; intros objs c Hn Hin Hl.
  { by apply elem_of_nil in Hin. }
  simpl in *.
  destruct (objs !! commit) as [c0|] eqn:Hc; [|done].
  destruct (outcome pat c0); [|done].
  destruct (decide (commit = l)) as [->|Hne].
  - assert (c0 = c) as -> by congruence.
    destruct (annotateAll_lookup commits
                (<[l := annotate base pat style c]> objs) l
                (annotate base pat style c)) as [H|H].
    + apply list_lookup_insert_eq. by eapply lookup_lt_Some.
    + done.
    + by rewrite annotate_idemp in H.
  - apply elem_of_cons in Hin as [?|Hin]; [done|].
    apply IH; [done..|]. by rewrite list_lookup_insert_ne.
Qed.

(** A loop that throws was stopped by an empty slot or by the extractor
    on the branch name of one of the array's commits. *)
Lemma annotateAll_Throw commits objs e :
  (annotateAll base pat style commits objs).1 = Throw e →
  ∃ commit, commit ∈ commits ∧
    (objs !! commit = None ∨
     ∃ c, objs !! commit = Some c ∧ ticketOf pat c = Throw e).
Proof.
  revert objs. induction commits as [|commit commits IH]; intros objs H; simpl in *.
  { done. }
  destruct (objs !! commit) as [c0|] eqn:Hc.
  - destruct (outcome pat c0) as [[]|e0] eqn:Ho.
    + destruct (IH _ H) as (l & Hin & Hl).
      exists l. split; [by apply elem_of_cons; right|].
      destruct (decide (commit = l)) as [->|Hne].
      * right. exists c0. split; [done|].
        destruct Hl as [Hl|(c' & Hl & Ht)].
        -- apply lookup_ge_None in Hl. rewrite length_insert in Hl.
           apply lookup_lt_Some in Hc. lia.
        -- rewrite list_lookup_insert_eq in Hl by (by eapply lookup_lt_Some).
           injection Hl as <-. by rewrite ticketOf_annotate in Ht.
      * by rewrite list_lookup_insert_ne in Hl.
    + exists commit. split; [by apply elem_of_cons; left|].
      right. exists c0. split; [done|].
      simpl in H. unfold outcome, outcomeOf in Ho.
      destruct (ticketOf pat c0); congruence.
  - exists commit. split; [by apply elem_of_cons; left|]. by left.
Qed.

(** Running the loop again on the objects it left: same completion,
    same objects. *)
Lemma annotateAll_idemp commits objs :
  annotateAll base pat style commits (annotateAll base pat style commits objs).2
  = annotateAll base pat style commits objs.
Proof.
  revert objs. induction commits as [|commit commits IH]; intros objs; simpl; [done|].
  destruct (objs !! commit) as [c0|] eqn:Hc.
  - destruct (outcome pat c0) as [[]|e0] eqn:Ho.
    + set (objs1 := <[commit := annotate base pat style c0]> objs).
      destruct (annotateAll_lookup commits objs1 commit (annotate base pat style c0))
        as [H|H].
      { apply list_lookup_insert_eq. by eapply lookup_lt_Some. }
      * rewrite H, outcome_annotate, Ho, annotate_idemp.
        rewrite list_insert_id by done. apply IH.
      * rewrite annotate_idemp in H.
        rewrite H, outcome_annotate, Ho, annotate_idemp.
        rewrite list_insert_id by done. apply IH.
    + simpl. by rewrite Hc, Ho.
  - simpl. by rewrite Hc.
Qed.

(** The loop on an array in two parts. *)
Lemma annotateAll_app commits1 commits2 objs :
  annotateAll base pat style (commits1 ++ commits2) objs =
    match annotateAll base pat style commits1 objs with
    | (Normal _, objs1) => annotateAll base pat style commits2 objs1
    | (Throw e, objs1) => (Throw e, objs1)
    end.
Proof.
  revert objs. induction commits1 as [|x commits1 IH]; intros objs; simpl; [done|].
  destruct (objs !! x) as [c|]; [|done]. by destruct (outcome pat c).
Qed.

End LoopBody.

Section Annotate.
Context {R R' : Type}.
Implicit Types (c : ConventionalCommit R R') (σ : Store R R').
Implicit Types (options : JiraLinkOptions) (commits : list ref).

(** [addJiraLinksToCommits] in terms of [annotateAllFrom] and
    [printedFrom]. *)
Lemma addJiraLinksToCommits_eq commits options σ :
  let base := jiraBaseUrlOf options in
  let pat := ticketPatternOf options in
  let style := linkStyleOf options in
  let r := annotateAllFrom base pat style commits (objects σ)
             (ticketPattern_lastIndex σ) in
  addJiraLinksToCommits commits options σ =
    (match r.1 with Normal _ => Normal commits | Throw e => Throw e end,
     {| objects := r.2.1;
        console :=
          console σ ++
          (if debugOf options
           then ["Processing " +:+ pretty (length commits)
                 +:+ " commits for Jira links"]
           else []) ++
          printedFrom base pat style (debugOf options) commits (objects σ)
            (ticketPattern_lastIndex σ);
        logger := logger σ;
        ticketPattern_lastIndex := r.2.2 |}).
Proof.
  intros base pat style r. subst r base pat style.
  unfold addJiraLinksToCommits, mbind, JS_bind, when,
    jiraBaseUrlOf, ticketPatternOf, linkStyleOf, debugOf.
  destruct (default false (debug options)); simpl;
    rewrite forOf_loopBody; simpl;
    destruct (annotateAllFrom _ _ _ _ _ _) as [[[]|e] [objs' li']]; simpl;
    unfold mret, JS_ret; by rewrite <-?(assoc_L (++)), ?app_nil_r.
Qed.

Lemma addJiraLinksToCommits_objects_from commits options σ :
  objects (addJiraLinksToCommits commits options σ).2 =
    (annotateAllFrom (jiraBaseUrlOf options) (ticketPatternOf options)
       (linkStyleOf options) commits (objects σ) (ticketPattern_lastIndex σ)).2.1.
Proof. by rewrite addJiraLinksToCommits_eq. Qed.

Lemma addJiraLinksToCommits_lastIndex_from commits options σ :
  ticketPattern_lastIndex (addJiraLinksToCommits commits options σ).2 =
    (annotateAllFrom (jiraBaseUrlOf options) (ticketPatternOf options)
       (linkStyleOf options) commits (objects σ) (ticketPattern_lastIndex σ)).2.2.
Proof. by rewrite addJiraLinksToCommits_eq. Qed.

Lemma addJiraLinksToCommits_completion_from commits options σ :
  (addJiraLinksToCommits commits options σ).1 =
    match (annotateAllFrom (jiraBaseUrlOf options) (ticketPatternOf options)
             (linkStyleOf options) commits (objects σ)
             (ticketPattern_lastIndex σ)).1 with
    | Normal _ => Normal commits
    | Throw e => Throw e
    end.
Proof. by rewrite addJiraLinksToCommits_eq. Qed.

(** With a rule that is not sticky, the objects and the completion are
    those of [annotateAll], whatever [lastIndex] was. *)
Lemma addJiraLinksToCommits_objects commits options σ :
  RegExp.sticky (ticketPatternOf options) = false →
  objects (addJiraLinksToCommits commits options σ).2 =
    (annotateAll (jiraBaseUrlOf options) (ticketPatternOf options)
       (linkStyleOf options) commits (objects σ)).2.
Proof.
  intros Hs. rewrite addJiraLinksToCommits_objects_from.
  by apply annotateAllFrom_stateless.
Qed.

Lemma addJiraLinksToCommits_completion commits options σ :
  RegExp.sticky (ticketPatternOf options) = false →
  (addJiraLinksToCommits commits options σ).1 =
    match (annotateAll (jiraBaseUrlOf options) (ticketPatternOf options)
             (linkStyleOf options) commits (objects σ)).1 with
    | Normal _ => Normal commits
    | Throw e => Throw e
    end.
Proof.
  intros Hs. rewrite addJiraLinksToCommits_completion_from.
  by rewrite (proj1 (annotateAllFrom_stateless _ _ _ _ _ _ Hs)).
Qed.

(** C2 (amended). With a matching rule that has no sticky flag,
    annotation is idempotent: running [addJiraLinksToCommits] again,
    with the same options, on the commits it has already annotated
    leaves every commit object (hence every [message] and
    [bareMessage]) exactly as the first run left it, and completes the
    same way: no link is appended twice and none is removed or
    rewritten. *)
Theorem addJiraLinksToCommits_idempotent commits options σ :
  RegExp.sticky (ticketPatternOf options) = false →
  let once := addJiraLinksToCommits commits options σ in
  let twice := addJiraLinksToCommits commits options once.2 in
  objects twice.2 = objects once.2 ∧
  (∀ l, message <$> objects twice.2 !! l = message <$> objects once.2 !! l) ∧
  (∀ l, bareMessage <$> objects twice.2 !! l = bareMessage <$> objects once.2 !! l) ∧
  twice.1 = once.1.
Proof.
  intros Hs once twice.
  assert (Hobj : objects twice.2 = objects once.2).
  { subst once twice. rewrite !addJiraLinksToCommits_objects by done.
    by rewrite annotateAll_idemp. }
  split; [done|]. rewrite Hobj. split; [done|]. split; [done|].
  subst once twice. rewrite !addJiraLinksToCommits_completion by done.
  rewrite addJiraLinksToCommits_objects by done. by rewrite annotateAll_idemp.
Qed.

Lemma visited_no_pullRequest base pat style c c' :
  truthyBranchName (pullRequest c) = None → visited base pat style c c' → c' = c.
Proof.
  intros Hno (Hsha & Hpr & Hrest & ids & ids' & Hmsg & Hbare & Hids).
  assert (Hnil : ids = [] ∧ ids' = []).
  { split.
    - destruct ids as [|t ids]; [done|].
      destruct (Hids t) as (b & li & Hb & _); [by apply elem_of_cons; left|congruence].
    - destruct ids' as [|t ids']; [done|].
      destruct (Hids t) as (b & li & Hb & _); [|congruence].
      apply elem_of_app; right. by apply elem_of_cons; left. }
  destruct Hnil as [-> ->]. simpl in Hmsg, Hbare. rewrite append_nil_r in Hmsg, Hbare.
  destruct c, c'; simpl in *; congruence.
Qed.


(** A commit the loop reaches and whose ticket, the same in whatever
    state the rule is, occurs in [bareMessage] but not in [message]:
    whatever happens to the rest of the array, its [message] is its old
    content followed by the formatted link and every other field of it,
    [bareMessage] included, is unchanged. *)
Lemma addJiraLinksToCommits_reached_checks
    pre commit post options σ c branchName ticketId :
  (addJiraLinksToCommits pre options σ).1 = Normal pre →
  objects σ !! commit = Some c →
  truthyBranchName (pullRequest c) = Some branchName →
  (∀ lastIndex,
     (extractJiraTicket branchName (ticketPatternOf options) lastIndex).1
     = Normal (Some ticketId)) →
  JSString.includes (bareMessage c) ticketId = true →
  JSString.includes (message c) ticketId = false →
  objects (addJiraLinksToCommits (pre ++ commit :: post) options σ).2 !! commit =
    Some {| sha := sha c;
            message :=
              message c +:+
              formatJiraLink ticketId (jiraBaseUrlOf options) (linkStyleOf options);
            bareMessage := bareMessage c;
            pullRequest := pullRequest c;
            commit_rest := commit_rest c |}.
Proof.
  intros Hpre Hc Hb Ht Hbare Hmsg.
  rewrite addJiraLinksToCommits_completion_from in Hpre.
  rewrite addJiraLinksToCommits_objects_from.
  set (base := jiraBaseUrlOf options) in *. set (pat := ticketPatternOf options) in *.
  set (style := linkStyleOf options) in *. set (li := ticketPattern_lastIndex σ) in *.
  assert (Hfix : ∀ lastIndex, (ticketAt pat lastIndex c).1 = Normal (Some ticketId)).
  { intros lastIndex. unfold ticketAt. rewrite Hb. apply Ht. }
  assert (Hann : annotateWith base style (Normal (Some ticketId)) c =
                 {| sha := sha c;
                    message := message c +:+ formatJiraLink ticketId base style;
                    bareMessage := bareMessage c;
                    pullRequest := pullRequest c;
                    commit_rest := commit_rest c |}).
  { unfold annotateWith. destruct ticketId as [|a id].
    { by rewrite includes_empty in Hmsg. }
    unfold appendUnlessIncluded. by rewrite Hbare, Hmsg. }
  rewrite <-Hann, annotateAllFrom_app.
  destruct (annotateAllFrom_lookup_fixed base pat style pre (objects σ) li commit c _
              Hfix Hc) as [Hcase _].
  destruct (annotateAllFrom base pat style pre (objects σ) li)
    as [[[]|e] [objs1 li1]]; [|done].
  cbn [fst snd] in Hcase. cbn [annotateAllFrom].
  destruct Hcase as [H1|H1]; rewrite H1.
  - rewrite (surjective_pairing (ticketAt pat li1 c)), Hfix. cbn [fst snd].
    apply annotateAllFrom_lookup_annotated; [done|].
    apply list_lookup_insert_eq. by eapply lookup_lt_Some.
  - rewrite ticketAt_annotateWith.
    rewrite (surjective_pairing (ticketAt pat li1 c)), Hfix. cbn [fst snd].
    rewrite annotateWith_idemp.
    apply annotateAllFrom_lookup_annotated; [done|].
    apply list_lookup_insert_eq. by eapply lookup_lt_Some.
Qed.

(** C9. The [debug] option changes nothing but the console: whatever
    its value, [addJiraLinksToCommits] leaves the same commit objects
    (hence the same [message] and [bareMessage] on every commit), the
    same logger and the same [lastIndex] on the rule, and completes the
    same way; with [debug] off it prints nothing. *)
Theorem addJiraLinksToCommits_debug_irrelevant commits options σ d d' :
  let out := addJiraLinksToCommits commits (setDebug d options) σ in
  let out' := addJiraLinksToCommits commits (setDebug d' options) σ in
  objects out.2 = objects out'.2 ∧
  logger out.2 = logger out'.2 ∧
  out.1 = out'.1 ∧
  (default false d = false → console out.2 = console σ) ∧
  ticketPattern_lastIndex out.2 = ticketPattern_lastIndex out'.2.
Proof.
  intros out out'. subst out out'. rewrite !addJiraLinksToCommits_eq. simpl.
  repeat split. unfold debugOf; simpl. intros ->.
  by rewrite printedFrom_false, !app_nil_r.
Qed.

(** *** An empty branch name *)

Lemma truthyBranchName_dropEmptyBranch c :
  truthyBranchName (pullRequest (dropEmptyBranch c)) = truthyBranchName (pullRequest c).
Proof.
  unfold dropEmptyBranch.
  destruct (pullRequest c) as [[[[|a b]|] rest]|] eqn:Hpr; simpl; by rewrite ?Hpr.
Qed.

Lemma ticketAt_dropEmptyBranch pat lastIndex c :
  ticketAt pat lastIndex (dropEmptyBranch c) = ticketAt pat lastIndex c.
Proof. unfold ticketAt. by rewrite truthyBranchName_dropEmptyBranch. Qed.

Lemma annotateWith_dropEmptyBranch base pat style lastIndex c :
  annotateWith base style (ticketAt pat lastIndex c).1 (dropEmptyBranch c)
  = dropEmptyBranch (annotateWith base style (ticketAt pat lastIndex c).1 c).
Proof.
  unfold ticketAt.
  destruct (truthyBranchName (pullRequest c)) as [b|] eqn:Hb; [|done].
  assert (Hd : dropEmptyBranch c = c).
  { unfold dropEmptyBranch.
    destruct (pullRequest c) as [[[[|a b']|] rest]|] eqn:Hpr; done. }
  unfold annotateWith.
  destruct (extractJiraTicket b pat lastIndex).1 as [[[|a id]|]|e]; try done.
  rewrite Hd. unfold dropEmptyBranch; simpl.
  destruct (pullRequest c) as [[[[|a' b']|] rest]|] eqn:Hpr; done.
Qed.

Lemma debugLinesWith_dropEmptyBranch dbg ticket c :
  debugLinesWith dbg ticket (dropEmptyBranch c) = debugLinesWith dbg ticket c.
Proof.
  unfold debugLinesWith. rewrite truthyBranchName_dropEmptyBranch.
  unfold dropEmptyBranch.
  destruct (pullRequest c) as [[[[|a b']|] rest]|] eqn:Hpr; done.
Qed.

Lemma annotateAllFrom_dropEmptyBranch base pat style commits
    (objs : list (ConventionalCommit R R')) lastIndex :
  let r := annotateAllFrom base pat style commits objs lastIndex in
  annotateAllFrom base pat style commits (dropEmptyBranch <$> objs) lastIndex =
    (r.1, (dropEmptyBranch <$> r.2.1, r.2.2)).
Proof.
  revert objs lastIndex.
  induction commits as [|x commits IH]; intros objs lastIndex; simpl; [done|].
  rewrite list_lookup_fmap. destruct (objs !! x) as [c0|]; simpl; [|done].
  rewrite ticketAt_dropEmptyBranch, annotateWith_dropEmptyBranch.
  destruct (ticketAt pat lastIndex c0).1; [|done].
  by rewrite <-list_fmap_insert, IH.
Qed.

Lemma printedFrom_dropEmptyBranch base pat style dbg commits
    (objs : list (ConventionalCommit R R')) lastIndex :
  printedFrom base pat style dbg commits (dropEmptyBranch <$> objs) lastIndex =
    printedFrom base pat style dbg commits objs lastIndex.
Proof.
  revert objs lastIndex.
  induction commits as [|x commits IH]; intros objs lastIndex; simpl; [done|].
  rewrite list_lookup_fmap. destruct (objs !! x) as [c0|]; simpl; [|done].
  rewrite ticketAt_dropEmptyBranch, annotateWith_dropEmptyBranch,
    debugLinesWith_dropEmptyBranch.
  destruct (ticketAt pat lastIndex c0).1; [|done].
  by rewrite <-list_fmap_insert, IH.
Qed.

(** C10. A commit whose pull request has the empty string for branch
    name is handled as one that has no branch name: whatever array is
    processed and whatever the options, the object is left as it was;
    processed on its own it completes normally whatever the matching
    rule (the extractor is not run, and the rule's [lastIndex] stays),
    printing the no-pull-request line when [debug] is on; and replacing
    every empty branch name of the store by a missing one changes
    neither the completion, nor the console, nor any other field of any
    commit. *)
Theorem addJiraLinksToCommits_empty_branch commits options σ l c pr :
  objects σ !! l = Some c →
  pullRequest c = Some pr →
  headBranchName pr = Some "" →
  let out := addJiraLinksToCommits commits options σ in
  objects out.2 !! l = Some c ∧
  addJiraLinksToCommits [l] options σ =
    (Normal [l],
     {| objects := objects σ;
        console :=
          console σ ++
          (if debugOf options
           then ["Processing 1 commits for Jira links";
                 "Commit " +:+ JSString.substring (sha c) 0 7
                 +:+ " has no associated pull request"]
           else []);
        logger := logger σ;
        ticketPattern_lastIndex := ticketPattern_lastIndex σ |}) ∧
  addJiraLinksToCommits commits options (dropEmptyBranches σ) =
    (out.1, dropEmptyBranches out.2).
Proof.
  intros Hl Hpr Hb out.
  assert (Hno : truthyBranchName (pullRequest c) = None).
  { unfold truthyBranchName. by rewrite Hpr, Hb. }
  split; [|split].
  - subst out. rewrite addJiraLinksToCommits_objects_from.
    destruct (annotateAllFrom_lookup (jiraBaseUrlOf options) (ticketPatternOf options)
                (linkStyleOf options) commits (objects σ)
                (ticketPattern_lastIndex σ) l c c (visited_refl _ _ _ c) Hl)
      as (c' & Hc' & Hv).
    by rewrite Hc', (visited_no_pullRequest _ _ _ _ _ Hno Hv).
  - rewrite addJiraLinksToCommits_eq. simpl. rewrite Hl.
    rewrite ticketAt_no_branch by done. simpl.
    unfold debugLinesWith. rewrite Hno.
    rewrite list_insert_id by done.
    by destruct (debugOf options).
  - subst out. rewrite !addJiraLinksToCommits_eq. simpl.
    rewrite annotateAllFrom_dropEmptyBranch, printedFrom_dropEmptyBranch. simpl.
    by destruct (annotateAllFrom _ _ _ _ _ _).1.
Qed.

End Annotate.

(** ** The extractor and the formatter *)

(** On a rule without the [g] flag: when the rule does not match (for a
    sticky rule, at [lastIndex]) the extractor returns absent; when it
    matches and its first capturing group took part in the match, the
    extractor returns that group's text in upper case. *)
Lemma extractJiraTicket_first_group branchName rule lastIndex :
  RegExp.global rule = false →
  let found :=
    RegExp.exec branchName (RegExp.ignoreCase rule) (RegExp.source rule)
      (RegExp.sticky rule) (if RegExp.sticky rule then lastIndex else 0) in
  (found = None → (extractJiraTicket branchName rule lastIndex).1 = Normal None) ∧
  (∀ r group1,
     found = Some r →
     RegExp.captures r.2 !! 0 = Some (Some group1) →
     (extractJiraTicket branchName rule lastIndex).1
     = Normal (Some (JSString.toUpperCase group1))).
Proof.
  intros Hg found. subst found. unfold extractJiraTicket, String_match. rewrite Hg.
  split.
  - by intros ->.
  - intros r group1 -> Hcap. simpl. by rewrite Hcap.
Qed.

(** With the default, case-insensitive rule ["playg-1008-foo"] yields
    ["PLAYG-1008"]. *)
Example extractJiraTicket_default_lower_case lastIndex :
  extractJiraTicket "playg-1008-foo" (ticketPatternOf Examples.noOptions) lastIndex
  = (Normal (Some "PLAYG-1008"), lastIndex).
Proof. done. Qed.

(** With the [g] flag, element 1 of the match array is the second match,
    not the first group of the first. *)
Example extractJiraTicket_global lastIndex :
  String_match "ab-1-cd-22" Examples.globalDefault lastIndex
  = (Some [Some "ab-1"; Some "cd-22"], 0) ∧
  extractJiraTicket "ab-1-cd-22" Examples.globalDefault lastIndex
  = (Normal (Some "CD-22"), 0).
Proof. done. Qed.

(** C1. The extractor does not return the first captured group whenever
    the rule matches: [/(AB-\d+)|CD-\d+/] is well formed and matches
    ["CD-5"], its group takes no part in the match, and the extractor,
    instead of returning, throws a [TypeError]. *)
Theorem extractJiraTicket_group_undefined lastIndex :
  RegExp.wellFormed (RegExp.source Examples.oneSidedGroup) = true ∧
  String_match "CD-5" Examples.oneSidedGroup lastIndex
  = (Some [Some "CD-5"; None], lastIndex) ∧
  extractJiraTicket "CD-5" Examples.oneSidedGroup lastIndex
  = (Throw (TypeError "Cannot read properties of undefined (reading 'toUpperCase')"),
     lastIndex).
Proof. done. Qed.

(** C3. Under the default rule ["P-123"] yields absent, but
    ["VERYLONGPROJECT-123"] does not: the pattern is not anchored, so the
    search finds the ten letters that precede the hyphen. *)
Theorem extractJiraTicket_default_boundaries lastIndex :
  extractJiraTicket "P-123" defaultTicketPattern lastIndex
  = (Normal None, lastIndex) ∧
  extractJiraTicket "VERYLONGPROJECT-123" defaultTicketPattern lastIndex
  = (Normal (Some "ONGPROJECT-123"), lastIndex).
Proof. done. Qed.

(** C8. The extractor can throw on a rule that was constructed without
    error: the default pattern written without its parentheses is well
    formed and matches
    ["PLAYG-1008-foo"], the match array has no element 1, and reading
    [toUpperCase] off it is a [TypeError]. *)
Theorem extractJiraTicket_throws lastIndex :
  RegExp.wellFormed (RegExp.source Examples.noGroup) = true ∧
  String_match "PLAYG-1008-foo" Examples.noGroup lastIndex
  = (Some [Some "PLAYG-1008"], lastIndex) ∧
  extractJiraTicket "PLAYG-1008-foo" Examples.noGroup lastIndex
  = (Throw (TypeError "Cannot read properties of undefined (reading 'toUpperCase')"),
     lastIndex).
Proof. done. Qed.

(** C5. The link fragment, character for character: inline, one space
    and then the markdown link in parentheses; newline, a line break, two
    spaces and the markdown link; and the inline link of [QUIKS-674]. *)
Theorem formatJiraLink_exact ticketId jiraBaseUrl :
  formatJiraLink ticketId jiraBaseUrl inline
  = String " " (String "(" (String "["
      (ticketId +:+ "](" +:+ jiraBaseUrl +:+ "/browse/" +:+ ticketId +:+ "))"))) ∧
  formatJiraLink ticketId jiraBaseUrl newline
  = String "010" (String " " (String " " (String "["
      (ticketId +:+ "](" +:+ jiraBaseUrl +:+ "/browse/" +:+ ticketId +:+ ")")))) ∧
  formatJiraLink "QUIKS-674" "https://example.atlassian.net" inline
  = " ([QUIKS-674](https://example.atlassian.net/browse/QUIKS-674))".
Proof.
  repeat split; unfold formatJiraLink, generateJiraLink;
    rewrite ?append_assoc; reflexivity.
Qed.

(** ** The adapter *)

(** [processCommits] never throws and returns the array it was given; the
    objects are those [addJiraLinksToCommits] left, whether it completed
    or threw. *)
Lemma processCommits_completes {R R'} jiraOptions commits (σ : Store R R') :
  (processCommits jiraOptions commits σ).1 = Normal commits ∧
  objects (processCommits jiraOptions commits σ).2
  = objects (addJiraLinksToCommits commits jiraOptions σ).2.
Proof.
  unfold processCommits, mbind, JS_bind, logger_log, tryCatch; simpl.
  rewrite !addJiraLinksToCommits_eq; simpl.
  by destruct (annotateAllFrom _ _ _ _ _ _).1.
Qed.

(** C4. [processCommits] does not fall back to the commits it was given:
    with the rule [/(AB-\d+)|CD-\d+/] the first commit is annotated, the
    extractor throws on the second, the error is caught and logged, and
    the array is returned with the first commit's messages already
    extended. *)
Theorem processCommits_partial_annotation :
  let σ := Examples.store [Examples.ab; Examples.cd] in
  let jiraOptions := JiraLinkPlugin_jiraOptions None None Examples.oneSidedOptions in
  let out := processCommits jiraOptions [0; 1] σ in
  out.1 = Normal [0; 1] ∧
  logger out.2 =
    [(log_info, "JiraLinkPlugin processing 2 commits");
     (log_error,
      "Error in JiraLinkPlugin: TypeError: Cannot read properties of undefined (reading 'toUpperCase')")] ∧
  objects out.2 ≠ objects σ ∧
  message <$> objects out.2 !! 0 =
    Some "feat: add feature ([AB-1](https://yourcompany.atlassian.net/browse/AB-1))" ∧
  bareMessage <$> objects out.2 !! 0 =
    Some "feat: add feature ([AB-1](https://yourcompany.atlassian.net/browse/AB-1))" ∧
  objects out.2 !! 1 = Some Examples.cd.
Proof. vm_compute. repeat split; done. Qed.

(** ** The loop on sample arrays *)

(** C2 fails as stated: with the sticky rule [/([A-Z]+-\d+)/y] the first
    run leaves the commit of branch [wxyzAB-1] alone (the rule does not
    match at index 0) and links the other commit, which leaves the
    rule's [lastIndex] at 5; the second run tries the first branch name
    at index 5, extracts [B-1] and appends a link to a [message] that
    the first run had left as it was. *)
Lemma addJiraLinksToCommits_sticky_rerun :
  let σ := Examples.store [Examples.prefixed; Examples.cd22] in
  let once := addJiraLinksToCommits [0; 1] Examples.stickyOptions σ in
  let twice := addJiraLinksToCommits [0; 1] Examples.stickyOptions once.2 in
  once.1 = Normal [0; 1] ∧ twice.1 = Normal [0; 1] ∧
  message <$> objects once.2 !! 0 = Some "fix: x" ∧
  ticketPattern_lastIndex once.2 = 5 ∧
  message <$> objects twice.2 !! 0 =
    Some "fix: x ([B-1](https://yourcompany.atlassian.net/browse/B-1))" ∧
  ¬ (∀ l, message <$> objects twice.2 !! l = message <$> objects once.2 !! l).
Proof.
  vm_compute. repeat split; try done. intros H. by specialize (H 0).
Qed.




(** A call of the extractor that throws has already moved the rule's
    [lastIndex]: under [/(AB-\d+)|CD-\d+/y] the match of ["CD-5"] ends at
    index 4. *)
Example addJiraLinksToCommits_sticky_throw :
  let rule := RegExp.mk (RegExp.source Examples.oneSidedGroup) false false true in
  let options :=
    {| jiraBaseUrl := None; ticketPattern := Some rule; linkStyle := None;
       debug := None |} in
  let out := addJiraLinksToCommits [0] options (Examples.store [Examples.cd]) in
  out.1
  = Throw (TypeError "Cannot read properties of undefined (reading 'toUpperCase')") ∧
  ticketPattern_lastIndex out.2 = 4 ∧
  objects out.2 = [Examples.cd].
Proof. vm_compute. repeat split; done. Qed.

(** ** Instances *)

Lemma addJiraLinksToCommits_idempotent_witness :
  let σ := Examples.store [Examples.feature; Examples.halfLinked] in
  let once := addJiraLinksToCommits [0; 1; 0] Examples.noOptions σ in
  objects (addJiraLinksToCommits [0; 1; 0] Examples.noOptions once.2).2
  = objects once.2.
Proof.
  intros σ once.
  exact (proj1 (addJiraLinksToCommits_idempotent [0; 1; 0] Examples.noOptions σ
                  eq_refl)).
Defined.


(** The commit of [halfLinked] is reached, and the run goes on to a
    commit without pull request. *)
Example addJiraLinksToCommits_reached_checks_halfLinked :
  let σ := Examples.store [Examples.unlinked; Examples.halfLinked] in
  (message <$> objects (addJiraLinksToCommits [0; 1; 0] Examples.noOptions σ).2 !! 1,
   bareMessage <$> objects (addJiraLinksToCommits [0; 1; 0] Examples.noOptions σ).2 !! 1)
  = (Some "fix: crash on start ([QUIKS-674](https://yourcompany.atlassian.net/browse/QUIKS-674))",
     Some "fix: crash on start (QUIKS-674)").
Proof.
  intros σ. change [0; 1; 0] with ([0] ++ 1 :: [0]).
  rewrite (addJiraLinksToCommits_reached_checks [0] 1 [0] Examples.noOptions σ
             Examples.halfLinked "quiks-674-crash" "QUIKS-674");
    reflexivity.
Qed.

Lemma addJiraLinksToCommits_empty_branch_witness :
  let σ := Examples.store [Examples.feature; Examples.emptyBranch] in
  objects (addJiraLinksToCommits [0; 1; 1] Examples.noOptions σ).2 !! 1
  = Some Examples.emptyBranch.
Proof.
  intros σ.
  exact (proj1 (addJiraLinksToCommits_empty_branch [0; 1; 1] Examples.noOptions σ 1
                  Examples.emptyBranch
                  {| headBranchName := Some ""; pullRequest_rest := () |}
                  eq_refl eq_refl eq_refl)).
Defined.

Lemma addJiraLinksToCommits_debug_irrelevant_witness :
  let σ := Examples.store [Examples.feature; Examples.unlinked] in
  console (addJiraLinksToCommits [0; 1] (setDebug (Some false) Examples.noOptions) σ).2
  = [].
Proof.
  intros σ.
  exact (proj1 (proj2 (proj2 (proj2 (addJiraLinksToCommits_debug_irrelevant
                                       [0; 1] Examples.noOptions σ (Some false)
                                       (Some true)))))
           eq_refl).
Defined.

(** * Further properties *)

(** ** Substrings *)
Section Substrings.
Import JSString.

Lemma substring_nil (n m : nat) : String.substring n m "" = "".
Proof. by destruct n, m. Qed.

Lemma substring_zero (s : string) (n : nat) : String.substring n 0 s = "".
Proof.
  revert n. induction s as [|a s IH]; intros [|n]; simpl; auto.
Qed.

Lemma substring_split (s : string) (a b c : nat) :
  a ≤ b → b ≤ c →
  String.substring a (c - a) s
  = String.substring a (b - a) s +:+ String.substring b (c - b) s.
Proof.
  revert a b c. induction s as [|ch s IH]; intros a b c Hab Hbc.
  { by rewrite !substring_nil. }
  destruct a as [|a].
  - rewrite !Nat.sub_0_r. destruct b as [|b].
    + by rewrite Nat.sub_0_r.
    + destruct c as [|c]; [lia|]. simpl. rewrite append_cons. f_equal.
      specialize (IH 0 b c). rewrite !Nat.sub_0_r in IH. apply IH; lia.
  - destruct b as [|b]; [lia|]. destruct c as [|c]; [lia|].
    simpl. apply IH; lia.
Qed.

Lemma get_substring (s : string) (n : nat) (ch : ascii) :
  String.get n s = Some ch → String.substring n 1 s = String ch "".
Proof.
  revert n. induction s as [|a s IH]; intros [|n]; simpl; try done.
  - intros [= ->]. by rewrite substring_zero.
  - apply IH.
Qed.

Lemma startsWith_substring (s : string) (m : nat) :
  startsWith s (String.substring 0 m s) = true.
Proof.
  revert m. induction s as [|a s IH]; intros [|m]; simpl; try done.
  rewrite decide_True by done. apply IH.
Qed.

(** A piece of a string occurs in it. *)
Lemma includes_substring (s : string) (n m : nat) :
  includes s (String.substring n m s) = true.
Proof.
  revert n. induction s as [|a s IH]; intros n.
  { by rewrite substring_nil. }
  destruct n as [|n].
  - apply includes_startsWith, startsWith_substring.
  - change (String.substring (S n) m (String a s)) with (String.substring n m s).
    simpl. by rewrite IH, orb_true_r.
Qed.

Lemma toUpperCase_substring (s : string) (n m : nat) :
  toUpperCase (String.substring n m s) = String.substring n m (toUpperCase s).
Proof.
  revert n m. induction s as [|a s IH]; intros [|n] [|m]; simpl; try done;
    by rewrite IH.
Qed.

Lemma toUpperCase_append (s t : string) :
  toUpperCase (s +:+ t) = toUpperCase s +:+ toUpperCase t.
Proof.
  induction s as [|a s IH]; [done|]. rewrite append_cons; simpl.
  by rewrite IH, append_cons.
Qed.

Lemma length_toUpperCase (s : string) :
  String.length (toUpperCase s) = String.length s.
Proof. induction s as [|a s IH]; simpl; by rewrite ?IH. Qed.

Lemma get_toUpperCase (s : string) (n : nat) :
  String.get n (toUpperCase s) = toUpperCaseChar <$> String.get n s.
Proof.
  revert n. induction s as [|a s IH]; intros [|n]; simpl; auto.
Qed.

End Substrings.

(** ** What the matcher keeps *)
Section MatcherInvariants.
Import RegExp.
Variable Input : string.
Variable icase : bool.

(** A property of the captures that holds of the start state and is kept
    by resetting a group and by recording a piece of the input holds of
    every state a matcher reaches. *)
Section Captures.
Variable P : list (option string) → Prop.
Hypothesis P_reset : ∀ caps k, P caps → P (<[k := None]> caps).
Hypothesis P_record : ∀ caps k a b,
  P caps → P (<[k := Some (JSString.substring Input a b)]> caps).

Lemma clearCaptures_keeps parenIndex parenCount caps :
  P caps → P (clearCaptures parenIndex parenCount caps).
Proof.
  intros H. unfold clearCaptures.
  induction (seq parenIndex parenCount) as [|k ks IH]; simpl; auto.
Qed.

Lemma RepeatMatcher_keeps fuel m min max parenIndex parenCount :
  (∀ x y, y ∈ m x → P (captures x) → P (captures y)) →
  ∀ x y, y ∈ RepeatMatcher fuel m min max parenIndex parenCount x →
         P (captures x) → P (captures y).
Proof.
  intros Hm. revert min max.
  induction fuel as [|fuel IH]; intros min max x y; simpl.
  { by intros ?%elem_of_nil. }
  case_bool_decide as Hmax.
  { by intros ->%list_elem_of_singleton. }
  set (xr := mkState (endIndex x) (clearCaptures parenIndex parenCount (captures x))).
  assert (Hz : ∀ y,
    y ∈ m xr ≫= (λ y0,
      if (min =? 0) && (endIndex y0 =? endIndex x) then []
      else RepeatMatcher fuel m (pred min) (pred <$> max) parenIndex parenCount y0) →
    P (captures x) → P (captures y)).
  { intros y' (y0 & Hy' & Hy0)%list_elem_of_bind HP.
    destruct ((min =? 0) && (endIndex y0 =? endIndex x)); [by apply elem_of_nil in Hy'|].
    eapply IH; [done|]. eapply Hm; [done|]. by apply clearCaptures_keeps. }
  destruct (min =? 0); [|apply Hz].
  intros [Hy| ->%list_elem_of_singleton]%elem_of_app; [by apply Hz|done].
Qed.

Lemma compile_keeps p parenIndex x y :
  y ∈ compile Input icase p parenIndex x → P (captures x) → P (captures y).
Proof.
  revert parenIndex x y.
  induction p as [|c|ranges| |p1 IH1 p2 IH2|p1 IH1 p2 IH2|p IH min max|p IH];
    intros parenIndex x y; cbn [compile].
  - by intros ->%list_elem_of_singleton.
  - unfold CharacterSetMatcher. destruct (String.get _ _); [|by intros ?%elem_of_nil].
    destruct (existsb _ _); [|by intros ?%elem_of_nil].
    by intros ->%list_elem_of_singleton.
  - unfold CharacterSetMatcher. destruct (String.get _ _); [|by intros ?%elem_of_nil].
    destruct (existsb _ _); [|by intros ?%elem_of_nil].
    by intros ->%list_elem_of_singleton.
  - unfold CharacterSetMatcher. destruct (String.get _ _); [|by intros ?%elem_of_nil].
    destruct (existsb _ _); [|by intros ?%elem_of_nil].
    by intros ->%list_elem_of_singleton.
  - intros (y0 & Hy & Hy0)%list_elem_of_bind HP. eauto.
  - intros [Hy|Hy]%elem_of_app; eauto.
  - apply RepeatMatcher_keeps. intros x' y'. apply IH.
  - intros (y0 & -> & Hy0)%list_elem_of_fmap HP. simpl.
    apply P_record. eauto.
Qed.

End Captures.

Lemma compile_captures_length p parenIndex x y :
  y ∈ compile Input icase p parenIndex x →
  length (captures y) = length (captures x).
Proof.
  intros Hy.
  apply (compile_keeps (λ caps, length caps = length (captures x)))
    with (p := p) (parenIndex := parenIndex) (x := x); try done.
  - intros caps k H. by rewrite length_insert.
  - intros caps k a b H. by rewrite length_insert.
Qed.

Lemma compile_captures_slices p parenIndex x y :
  y ∈ compile Input icase p parenIndex x →
  Forall (sliceOf Input) (captures x) → Forall (sliceOf Input) (captures y).
Proof.
  apply (compile_keeps (Forall (sliceOf Input))).
  - intros caps k H. apply Forall_insert; [done|]. by intros s.
  - intros caps k a b H. apply Forall_insert; [done|].
    intros s [= <-]. eauto.
Qed.

(** The state a search reports was reached by the matcher from the start
    state of its position. *)
Lemma search_reached p n i r :
  search Input icase p n i = Some r →
  r.2 ∈ compile Input icase p 0
          (mkState r.1 (replicate (countLeftCapturingParens p) None)).
Proof.
  revert i. induction n as [|n IH]; intros i; simpl; [done|].
  unfold matchAt. destruct (head _) as [y|] eqn:Hhead.
  - intros [= <-]. simpl. by apply head_Some_elem_of.
  - apply IH.
Qed.

Lemma exec_reached p sticky lastIndex r :
  exec Input icase p sticky lastIndex = Some r →
  r.2 ∈ compile Input icase p 0
          (mkState r.1 (replicate (countLeftCapturingParens p) None)).
Proof. apply search_reached. Qed.

Lemma exec_captures_slices p sticky lastIndex r :
  exec Input icase p sticky lastIndex = Some r →
  Forall (sliceOf Input) (captures r.2).
Proof.
  intros H%exec_reached. eapply compile_captures_slices; [done|]. simpl.
  apply Forall_replicate. by intros s.
Qed.

(** A pattern that is one capturing group records it in every match. *)
Lemma exec_Group_capture p sticky lastIndex r :
  exec Input icase (Group p) sticky lastIndex = Some r →
  ∃ y, y ∈ compile Input icase p 1
             (mkState r.1 (replicate (S (countLeftCapturingParens p)) None)) ∧
       endIndex r.2 = endIndex y ∧
       captures r.2 !! 0 = Some (Some (JSString.substring Input r.1 (endIndex y))).
Proof.
  intros H%exec_reached. cbn [compile countLeftCapturingParens] in H.
  apply list_elem_of_fmap in H as (y & Hr & Hy).
  exists y. split; [done|]. rewrite Hr; simpl. split; [done|].
  apply list_lookup_insert_eq.
  rewrite (compile_captures_length _ _ _ _ Hy); simpl.
  rewrite length_replicate. lia.
Qed.

End MatcherInvariants.

(** ** The matcher is sound

    Whatever the matcher consumes between two states is a text the
    pattern matches. *)
Section MatcherSound.
Import RegExp.
Variable Input : string.
Variable icase : bool.

Lemma consumed_refl x : consumed Input x x = "".
Proof. unfold consumed, JSString.substring. by rewrite Nat.sub_diag, substring_zero. Qed.

Lemma consumed_trans x y z :
  advances Input x y → advances Input y z →
  consumed Input x z = consumed Input x y +:+ consumed Input y z.
Proof.
  intros [Hxy _] [Hyz _]. unfold consumed, JSString.substring.
  by apply substring_split.
Qed.

Lemma CharacterSetMatcher_sound A x y :
  y ∈ CharacterSetMatcher Input icase A x →
  ∃ ch, consumed Input x y = String ch "" ∧ inSet icase A ch.
Proof.
  unfold CharacterSetMatcher.
  destruct (String.get (endIndex x) Input) as [ch|] eqn:Hget; [|by intros ?%elem_of_nil].
  destruct (existsb _ A) eqn:HA; [|by intros ?%elem_of_nil].
  intros ->%list_elem_of_singleton. exists ch. split.
  - unfold consumed, JSString.substring; simpl.
    replace (S (endIndex x) - endIndex x) with 1 by lia.
    by apply get_substring.
  - apply existsb_exists in HA as (a & Ha & Heq).
    exists a. split; [by apply list_elem_of_In|]. by apply bool_decide_eq_true in Heq.
Qed.

Lemma RepeatMatcher_sound fuel m (M : string → Prop) min max parenIndex parenCount :
  progressive Input m →
  (∀ x y, y ∈ m x → M (consumed Input x y)) →
  ∀ x y, y ∈ RepeatMatcher fuel m min max parenIndex parenCount x →
    ∃ pieces, consumed Input x y = joined pieces ∧ Forall M pieces ∧
      (∀ k, max = Some k → length pieces ≤ k) ∧
      (min ≤ length pieces ∨ max = Some (length pieces)).
Proof.
  intros Hprog Hm. revert min max.
  induction fuel as [|fuel IH]; intros min max x y; simpl.
  { by intros ?%elem_of_nil. }
  case_bool_decide as Hmax.
  { intros ->%list_elem_of_singleton. exists []. rewrite consumed_refl.
    repeat split; [done|simpl; lia|by right]. }
  set (xr := mkState (endIndex x) (clearCaptures parenIndex parenCount (captures x))).
  assert (Hstop : ∃ pieces, consumed Input x x = joined pieces ∧ Forall M pieces ∧
            (∀ k, max = Some k → length pieces ≤ k) ∧
            (0 ≤ length pieces ∨ max = Some (length pieces))).
  { exists []. rewrite consumed_refl. repeat split; [done|simpl; lia|by left]. }
  assert (Hz : ∀ y,
    y ∈ m xr ≫= (λ y0,
      if (min =? 0) && (endIndex y0 =? endIndex x) then []
      else RepeatMatcher fuel m (pred min) (pred <$> max) parenIndex parenCount y0) →
    ∃ pieces, consumed Input x y = joined pieces ∧ Forall M pieces ∧
      (∀ k, max = Some k → length pieces ≤ k) ∧
      (min ≤ length pieces ∨ max = Some (length pieces))).
  { intros y' (y0 & Hy' & Hy0)%list_elem_of_bind.
    destruct ((min =? 0) && (endIndex y0 =? endIndex x)); [by apply elem_of_nil in Hy'|].
    assert (Hadv0 : advances Input x y0) by (by apply Hprog in Hy0).
    assert (Hadv : advances Input y0 y').
    { by apply (RepeatMatcher_progressive Input fuel m _ _ _ _ Hprog) in Hy'. }
    apply IH in Hy' as (pieces & Hcons & Hall & Hle & Hge).
    exists (consumed Input x y0 :: pieces). repeat split.
    - rewrite (consumed_trans _ _ _ Hadv0 Hadv), Hcons. done.
    - apply Forall_cons. split; [|done]. by apply (Hm xr y0).
    - intros k ->. destruct k as [|k]; [done|]. simpl in *.
      specialize (Hle k eq_refl). lia.
    - simpl. destruct Hge as [Hge|Hge]; [left; lia|].
      destruct max as [[|k]|]; simpl in *; try done.
      right. by injection Hge as ->. }
  destruct (min =? 0) eqn:Hmin; [|apply Hz].
  apply Nat.eqb_eq in Hmin as ->.
  intros [Hy| ->%list_elem_of_singleton]%elem_of_app; [by apply Hz|done].
Qed.

Theorem compile_sound p parenIndex x y :
  y ∈ compile Input icase p parenIndex x → Matches icase p (consumed Input x y).
Proof.
  revert parenIndex x y.
  induction p as [|c|ranges| |p1 IH1 p2 IH2|p1 IH1 p2 IH2|p IH min max|p IH];
    intros parenIndex x y; cbn [compile Matches].
  - intros ->%list_elem_of_singleton. apply consumed_refl.
  - apply CharacterSetMatcher_sound.
  - apply CharacterSetMatcher_sound.
  - apply CharacterSetMatcher_sound.
  - intros (y0 & Hy & Hy0)%list_elem_of_bind.
    exists (consumed Input x y0), (consumed Input y0 y). split; [|by eauto].
    apply consumed_trans; by eapply compile_progressive.
  - intros [Hy|Hy]%elem_of_app; eauto.
  - apply RepeatMatcher_sound; [apply compile_progressive|]. intros x' y'. apply IH.
  - intros (y0 & -> & Hy0)%list_elem_of_fmap. by apply IH in Hy0.
Qed.

End MatcherSound.

(** ** The extractor on every rule and on the default rule *)

Lemma matchGlobal_slices Input icase p sticky fuel lastIndex g :
  g ∈ RegExp.matchGlobal Input icase p sticky fuel lastIndex →
  ∃ a b, g = JSString.substring Input a b.
Proof.
  revert lastIndex. induction fuel as [|fuel IH]; intros lastIndex; simpl.
  { by intros ?%elem_of_nil. }
  destruct (RegExp.exec Input icase p sticky lastIndex) as [r|];
    [|by intros ?%elem_of_nil].
  intros [->|Hg]%elem_of_cons; [by eexists _, _|by eapply IH].
Qed.

(** Element 1 of a match array, when it is a string, is a piece of the
    string that was matched. *)
Lemma String_match_slice str regexp lastIndex match_ group1 :
  (String_match str regexp lastIndex).1 = Some match_ →
  match_ !! 1 = Some (Some group1) →
  ∃ a b, group1 = JSString.substring str a b.
Proof.
  unfold String_match. destruct (RegExp.global regexp).
  - cbn [fst]. destruct (RegExp.matchGlobal _ _ _ _ _ _) as [|g0 A] eqn:HA; [done|].
    intros [= <-] Hl. simpl in Hl. rewrite list_lookup_fmap in Hl.
    destruct (A !! 0) as [g|] eqn:Hg; [|done].
    injection Hl as ->. apply list_elem_of_lookup_2 in Hg.
    eapply matchGlobal_slices. rewrite HA. by apply elem_of_cons; right.
  - destruct (RegExp.exec _ _ _ _ _) as [r|] eqn:Hr; [|done].
    intros [= <-] Hl. simpl in Hl.
    apply exec_captures_slices in Hr.
    rewrite Forall_lookup in Hr. by apply (Hr 0 _ Hl).
Qed.

Lemma allChars_append f (s t : string) :
  allChars f (s +:+ t) = allChars f s && allChars f t.
Proof.
  induction s as [|a s IH]; [done|]. rewrite append_cons; simpl.
  by rewrite IH, andb_assoc.
Qed.

Lemma allChars_substring f (s : string) (n m : nat) :
  allChars f s = true → allChars f (String.substring n m s) = true.
Proof.
  revert n m. induction s as [|a s IH]; intros n m; [by rewrite substring_nil|].
  simpl. intros [Ha Hs]%andb_true_iff.
  destruct n as [|n], m as [|m]; simpl; auto. by rewrite Ha, IH.
Qed.

Lemma isAscii_allChars (s : string) :
  JSString.isAscii s = allChars JSString.isAsciiChar s.
Proof. induction s as [|a s IH]; simpl; by rewrite ?IH. Qed.

Lemma toUpperCaseChar_not_lower (c : ascii) :
  isLowerLetter (JSString.toUpperCaseChar c) = false.
Proof.
  unfold isLowerLetter, JSString.toUpperCaseChar.
  destruct ((97 <=? nat_of_ascii c) && (nat_of_ascii c <=? 122)) eqn:E; [|done].
  apply andb_true_iff in E as [H1%Nat.leb_le H2%Nat.leb_le].
  rewrite nat_ascii_embedding by lia.
  apply andb_false_iff. left. apply Nat.leb_gt. lia.
Qed.

Lemma toUpperCaseChar_ascii (c : ascii) :
  JSString.isAsciiChar c = true →
  JSString.isAsciiChar (JSString.toUpperCaseChar c) = true.
Proof.
  unfold JSString.isAsciiChar, JSString.toUpperCaseChar.
  destruct ((97 <=? nat_of_ascii c) && (nat_of_ascii c <=? 122)) eqn:E; [|done].
  apply andb_true_iff in E as [H1%Nat.leb_le H2%Nat.leb_le].
  rewrite nat_ascii_embedding by lia.
  intros _. apply Nat.ltb_lt. lia.
Qed.

(** X1. The extractor never invents text: whatever the rule and the
    state it is in, a ticket it returns from an ASCII branch name (where
    [JSString.toUpperCase] is the [toUpperCase] of the code) occurs in
    the branch name written in upper case. *)
Theorem extractJiraTicket_occurs_in_branch branchName rule lastIndex ticketId :
  JSString.isAscii branchName = true →
  (extractJiraTicket branchName rule lastIndex).1 = Normal (Some ticketId) →
  JSString.includes (JSString.toUpperCase branchName) ticketId = true.
Proof.
  intros _. unfold extractJiraTicket. simpl.
  destruct (String_match branchName rule lastIndex).1 as [m|] eqn:Hm; [|done].
  destruct (m !! 1) as [[g|]|] eqn:Hg; try done.
  intros [= <-].
  destruct (String_match_slice _ _ _ _ _ Hm Hg) as (a & b & ->).
  unfold JSString.substring. rewrite toUpperCase_substring.
  apply includes_substring.
Qed.

Lemma extractJiraTicket_occurs_in_branch_witness :
  JSString.includes "FEATURE/QUIKS-674-UI" "QUIKS-674" = true.
Proof.
  exact (extractJiraTicket_occurs_in_branch
           "feature/quiks-674-ui" defaultTicketPattern 0 "QUIKS-674" eq_refl eq_refl).
Defined.

(** X2. Whatever the rule, the state it is in and the case of the
    branch name, a ticket the extractor returns from an ASCII branch
    name is ASCII and has no lower-case letter. *)
Theorem extractJiraTicket_no_lower_case branchName rule lastIndex ticketId :
  JSString.isAscii branchName = true →
  (extractJiraTicket branchName rule lastIndex).1 = Normal (Some ticketId) →
  allChars (λ c, JSString.isAsciiChar c && negb (isLowerLetter c)) ticketId = true.
Proof.
  intros Hascii. unfold extractJiraTicket. simpl.
  destruct (String_match branchName rule lastIndex).1 as [m|] eqn:Hm; [|done].
  destruct (m !! 1) as [[g|]|] eqn:Hg; try done.
  intros [= <-].
  destruct (String_match_slice _ _ _ _ _ Hm Hg) as (a & b & ->).
  rewrite isAscii_allChars in Hascii.
  apply (allChars_substring _ _ a (b - a)) in Hascii.
  unfold JSString.substring.
  induction (String.substring a (b - a) branchName) as [|ch g IH]; simpl; [done|].
  simpl in Hascii. apply andb_true_iff in Hascii as [Hch Hg'].
  by rewrite toUpperCaseChar_ascii, toUpperCaseChar_not_lower, IH.
Qed.

Lemma extractJiraTicket_no_lower_case_witness :
  allChars (λ c, JSString.isAsciiChar c && negb (isLowerLetter c)) "PLAYG-1008" = true.
Proof.
  exact (extractJiraTicket_no_lower_case
           "playg-1008-foo" defaultTicketPattern 0 "PLAYG-1008" eq_refl eq_refl).
Defined.

(** A rule without the [g] flag whose pattern is one capturing group
    never makes the extractor throw. *)
Lemma extractJiraTicket_Group branchName p icase sticky lastIndex :
  ∃ ticketId,
    (extractJiraTicket branchName (RegExp.mk (RegExp.Group p) icase false sticky)
       lastIndex).1
    = Normal ticketId.
Proof.
  unfold extractJiraTicket, String_match; simpl.
  destruct (RegExp.exec _ _ _ _ _) as [r|] eqn:Hr; [|by eexists].
  apply exec_Group_capture in Hr as (y & _ & _ & Hcap).
  simpl. rewrite Hcap. by eexists.
Qed.

(** *** The shape of a ticket under the default rule *)

Lemma inSet_letters ch :
  inSet true ([("A"%char, "Z"%char)] ≫= RegExp.rangeChars) ch →
  isUpperLetter (JSString.toUpperCaseChar ch) = true.
Proof.
  intros (a & Ha & Heq). unfold RegExp.Canonicalize in Heq. rewrite <-Heq.
  vm_compute in Ha.
  repeat (apply elem_of_cons in Ha as [->|Ha]; [reflexivity|]).
  by apply elem_of_nil in Ha.
Qed.

Lemma inSet_digits ch :
  inSet true RegExp.digits ch → isDigit (JSString.toUpperCaseChar ch) = true.
Proof.
  intros (a & Ha & Heq). unfold RegExp.Canonicalize in Heq. rewrite <-Heq.
  vm_compute in Ha.
  repeat (apply elem_of_cons in Ha as [->|Ha]; [reflexivity|]).
  by apply elem_of_nil in Ha.
Qed.

Lemma inSet_hyphen ch :
  inSet true ["-"%char] ch → JSString.toUpperCaseChar ch = "-"%char.
Proof.
  intros (a & Ha & Heq). unfold RegExp.Canonicalize in Heq. rewrite <-Heq.
  by apply list_elem_of_singleton in Ha as ->.
Qed.

(** A run of one-character pieces that all satisfy [f] once in upper
    case. *)
Lemma joined_chars (Q : ascii → Prop) (f : ascii → bool) pieces :
  (∀ ch, Q ch → f (JSString.toUpperCaseChar ch) = true) →
  Forall (λ s, ∃ ch, s = String ch "" ∧ Q ch) pieces →
  String.length (JSString.toUpperCase (joined pieces)) = length pieces ∧
  allChars f (JSString.toUpperCase (joined pieces)) = true.
Proof.
  intros HQ. induction 1 as [|s pieces (ch & -> & Hch) _ [IHlen IHall]]; [done|].
  change (joined (String ch "" :: pieces)) with (String ch (joined pieces)).
  simpl. by rewrite IHlen, IHall, (HQ _ Hch).
Qed.

(** What the default pattern captures: a run of two to ten letters, a
    hyphen, and a run of one or more digits, taken from the input. *)
Lemma default_capture_parts Input sticky lastIndex r :
  RegExp.exec Input true (RegExp.source defaultTicketPattern) sticky lastIndex
  = Some r →
  ∃ pieces1 ch pieces2 a b,
    RegExp.captures r.2 !! 0
    = Some (Some (joined pieces1 +:+ String ch "" +:+ joined pieces2)) ∧
    joined pieces1 +:+ String ch "" +:+ joined pieces2 = JSString.substring Input a b ∧
    Forall (λ s, ∃ c, s = String c "" ∧
                      inSet true ([("A"%char, "Z"%char)] ≫= RegExp.rangeChars) c)
      pieces1 ∧
    2 ≤ length pieces1 ≤ 10 ∧
    inSet true ["-"%char] ch ∧
    Forall (λ s, ∃ c, s = String c "" ∧ inSet true RegExp.digits c) pieces2 ∧
    1 ≤ length pieces2.
Proof.
  intros Hr. apply exec_Group_capture in Hr as (y & Hy & _ & Hcap).
  apply compile_sound in Hy. unfold consumed in Hy; simpl in Hy.
  destruct Hy as (s1 & s2 & Heq & Hs1 & s21 & s22 & -> & Hs21 & Hs22).
  destruct Hs1 as (pieces1 & -> & Hall1 & Hmax1 & Hmin1).
  destruct Hs21 as (ch & -> & Hch).
  destruct Hs22 as (pieces2 & -> & Hall2 & _ & Hmin2).
  exists pieces1, ch, pieces2, r.1, (RegExp.endIndex y).
  rewrite Hcap, Heq. repeat split; try done.
  - destruct Hmin1 as [?|[= ?]]; lia.
  - by apply (Hmax1 10).
  - by destruct Hmin2 as [?|?].
Qed.

(** X3. Under the default rule every ticket the extractor returns is two
    to ten capital letters, a hyphen, and one or more digits. *)
Theorem extractJiraTicket_default_shape branchName lastIndex ticketId :
  (extractJiraTicket branchName defaultTicketPattern lastIndex).1
  = Normal (Some ticketId) →
  ∃ letters digits,
    ticketId = letters +:+ "-" +:+ digits ∧
    2 ≤ String.length letters ≤ 10 ∧ allChars isUpperLetter letters = true ∧
    1 ≤ String.length digits ∧ allChars isDigit digits = true.
Proof.
  unfold extractJiraTicket, String_match; simpl.
  destruct (RegExp.exec _ _ _ _ _) as [r|] eqn:Hr; [|done].
  apply default_capture_parts in Hr
    as (pieces1 & ch & pieces2 & a & b & Hcap & _ & Hall1 & Hlen1 & Hch%inSet_hyphen
        & Hall2 & Hlen2).
  simpl. rewrite Hcap. intros [= <-].
  destruct (joined_chars _ isUpperLetter pieces1 inSet_letters Hall1) as [Hl1 Hup1].
  destruct (joined_chars _ isDigit pieces2 inSet_digits Hall2) as [Hl2 Hup2].
  exists (JSString.toUpperCase (joined pieces1)), (JSString.toUpperCase (joined pieces2)).
  rewrite !toUpperCase_append, Hl1, Hl2. simpl. by rewrite Hch.
Qed.

Lemma extractJiraTicket_default_shape_witness :
  ∃ letters digits,
    "ONGPROJECT-123" = letters +:+ "-" +:+ digits ∧
    2 ≤ String.length letters ≤ 10 ∧ allChars isUpperLetter letters = true ∧
    1 ≤ String.length digits ∧ allChars isDigit digits = true.
Proof.
  exact (extractJiraTicket_default_shape "VERYLONGPROJECT-123" 0 "ONGPROJECT-123"
           eq_refl).
Defined.

(** ** Case-insensitive rules do not see the case of the input *)
Section CaseInsensitive.
Import RegExp.
Variables Input Input' : string.
Hypothesis Hcase : sameUpToCase Input Input'.

Lemma sameUpToCase_length : String.length Input = String.length Input'.
Proof. by rewrite <-(length_toUpperCase Input), Hcase, length_toUpperCase. Qed.

Lemma sameUpToCase_get n :
  option_Forall2 (λ c c', JSString.toUpperCaseChar c = JSString.toUpperCaseChar c')
    (String.get n Input) (String.get n Input').
Proof.
  assert (H := get_toUpperCase Input n). rewrite Hcase, get_toUpperCase in H.
  destruct (String.get n Input), (String.get n Input'); simplify_eq/=;
    by constructor.
Qed.

Lemma sameUpToCase_substring a b :
  sameUpToCase (JSString.substring Input a b) (JSString.substring Input' a b).
Proof.
  unfold sameUpToCase, JSString.substring. by rewrite !toUpperCase_substring, Hcase.
Qed.

Lemma sameUpToCase_truthy (s s' : string) :
  sameUpToCase s s' → JSString.truthy s = JSString.truthy s'.
Proof.
  unfold sameUpToCase. intros H.
  by rewrite <-(truthy_toUpperCase s), H, truthy_toUpperCase.
Qed.

Lemma Forall2_bind_related {A B C D} (R : A → B → Prop) (Q : C → D → Prop)
    (f : A → list C) (g : B → list D) l l' :
  Forall2 R l l' → (∀ x x', R x x' → Forall2 Q (f x) (g x')) →
  Forall2 Q (l ≫= f) (l' ≫= g).
Proof.
  intros Hl Hfg. apply Forall2_bind. eapply Forall2_impl; [done|]. apply Hfg.
Qed.

Lemma CharacterSetMatcher_same A x x' :
  sameState x x' →
  Forall2 sameState (CharacterSetMatcher Input true A x)
    (CharacterSetMatcher Input' true A x').
Proof.
  intros [He Hc]. unfold CharacterSetMatcher. rewrite <-He.
  destruct (sameUpToCase_get (endIndex x)) as [ch ch' Hch|]; [|constructor].
  unfold Canonicalize. rewrite <-Hch.
  destruct (existsb _ A); constructor; [|constructor].
  split; simpl; [by rewrite He|done].
Qed.

Lemma clearCaptures_same parenIndex parenCount caps caps' :
  sameCaptures caps caps' →
  sameCaptures (clearCaptures parenIndex parenCount caps)
    (clearCaptures parenIndex parenCount caps').
Proof.
  intros H. unfold clearCaptures.
  induction (seq parenIndex parenCount) as [|k ks IH]; simpl; [done|].
  apply Forall2_insert; [done|constructor].
Qed.

Lemma RepeatMatcher_same fuel m m' min max parenIndex parenCount :
  (∀ x x', sameState x x' → Forall2 sameState (m x) (m' x')) →
  ∀ x x', sameState x x' →
    Forall2 sameState
      (RepeatMatcher fuel m min max parenIndex parenCount x)
      (RepeatMatcher fuel m' min max parenIndex parenCount x').
Proof.
  intros Hm. revert min max.
  induction fuel as [|fuel IH]; intros min max x x' Hx; simpl; [constructor|].
  case_bool_decide; [constructor; [done|constructor]|].
  destruct Hx as [He Hc].
  assert (Hz : Forall2 sameState
    (m (mkState (endIndex x) (clearCaptures parenIndex parenCount (captures x))) ≫=
       (λ y, if (min =? 0) && (endIndex y =? endIndex x) then []
             else RepeatMatcher fuel m (pred min) (pred <$> max)
                    parenIndex parenCount y))
    (m' (mkState (endIndex x') (clearCaptures parenIndex parenCount (captures x'))) ≫=
       (λ y, if (min =? 0) && (endIndex y =? endIndex x') then []
             else RepeatMatcher fuel m' (pred min) (pred <$> max)
                    parenIndex parenCount y))).
  { eapply Forall2_bind_related.
    - apply Hm. split; simpl; [done|by apply clearCaptures_same].
    - intros y y' Hy. rewrite <-He, <-(proj1 Hy).
      destruct ((min =? 0) && (endIndex y =? endIndex x)); [constructor|by apply IH]. }
  destruct (min =? 0); [|done].
  apply Forall2_app; [done|]. constructor; [by split|constructor].
Qed.

Lemma compile_same p parenIndex x x' :
  sameState x x' →
  Forall2 sameState (compile Input true p parenIndex x)
    (compile Input' true p parenIndex x').
Proof.
  revert parenIndex x x'.
  induction p as [|c|ranges| |p1 IH1 p2 IH2|p1 IH1 p2 IH2|p IH min max|p IH];
    intros parenIndex x x' Hx; cbn [compile].
  - constructor; [done|constructor].
  - by apply CharacterSetMatcher_same.
  - by apply CharacterSetMatcher_same.
  - by apply CharacterSetMatcher_same.
  - eapply Forall2_bind_related; [by apply IH1|]. intros y y'. apply IH2.
  - apply Forall2_app; [by apply IH1|by apply IH2].
  - rewrite <-sameUpToCase_length, <-(proj1 Hx).
    apply RepeatMatcher_same; [|done]. intros y y'. apply IH.
  - apply Forall2_fmap. eapply Forall2_impl; [by apply IH|].
    intros y y' [He Hc]. split; simpl; [done|].
    apply Forall2_insert; [done|]. constructor.
    rewrite <-(proj1 Hx), <-He. apply sameUpToCase_substring.
Qed.

Lemma search_same p n i :
  option_Forall2 sameResult (search Input true p n i) (search Input' true p n i).
Proof.
  revert i. induction n as [|n IH]; intros i; simpl; [constructor|].
  unfold matchAt.
  assert (H : Forall2 sameState
    (compile Input true p 0 (mkState i (replicate (countLeftCapturingParens p) None)))
    (compile Input' true p 0 (mkState i (replicate (countLeftCapturingParens p) None)))).
  { apply compile_same. split; simpl; [done|].
    apply Forall2_replicate. constructor. }
  destruct H as [|y y' l l' Hy _]; simpl; [apply IH|].
  constructor. by split.
Qed.

Lemma exec_same p sticky lastIndex :
  option_Forall2 sameResult (exec Input true p sticky lastIndex)
    (exec Input' true p sticky lastIndex).
Proof.
  unfold exec, positions. rewrite <-sameUpToCase_length. apply search_same.
Qed.

Lemma matched_same r r' :
  sameResult r r' → sameUpToCase (matched Input r) (matched Input' r').
Proof.
  intros [Hi [He _]]. unfold matched. rewrite <-Hi, <-He.
  apply sameUpToCase_substring.
Qed.

Lemma matchGlobal_same p sticky fuel lastIndex :
  Forall2 sameUpToCase (matchGlobal Input true p sticky fuel lastIndex)
    (matchGlobal Input' true p sticky fuel lastIndex).
Proof.
  revert lastIndex. induction fuel as [|fuel IH]; intros lastIndex; simpl; [constructor|].
  destruct (exec_same p sticky lastIndex) as [r r' Hr|]; [|constructor].
  constructor; [by apply matched_same|].
  rewrite <-(sameUpToCase_truthy _ _ (matched_same _ _ Hr)).
  destruct Hr as [_ [-> _]]. apply IH.
Qed.

End CaseInsensitive.

Lemma String_match_same str str' regexp lastIndex :
  RegExp.ignoreCase regexp = true → sameUpToCase str str' →
  option_Forall2 sameCaptures (String_match str regexp lastIndex).1
    (String_match str' regexp lastIndex).1 ∧
  (String_match str regexp lastIndex).2 = (String_match str' regexp lastIndex).2.
Proof.
  intros Hi Hcase. unfold String_match. rewrite Hi.
  destruct (RegExp.global regexp).
  - split; [|done]. cbn [fst]. rewrite <-(sameUpToCase_length _ _ Hcase).
    destruct (matchGlobal_same _ _ Hcase (RegExp.source regexp) (RegExp.sticky regexp)
                (2 + String.length str) 0) as [|g g' A A' Hg HA]; constructor.
    apply (Forall2_fmap_2 Some Some). constructor; [by constructor|].
    eapply Forall2_impl; [done|]. by constructor.
  - destruct (exec_same _ _ Hcase (RegExp.source regexp) (RegExp.sticky regexp)
                (if RegExp.sticky regexp then lastIndex else 0)) as [r r' Hr|];
      cbn [fst snd].
    + split.
      * constructor. constructor; [constructor; by apply matched_same|]. apply Hr.
      * destruct Hr as [_ [-> _]]. done.
    + split; [constructor|done].
Qed.

(** X4. A rule with the [i] flag does not see the case of the branch
    name: for two ASCII branch names that differ only in the case of
    their letters the extractor gives the same result, be it a ticket,
    absent, or the same error, and leaves the rule in the same state. *)
Theorem extractJiraTicket_ignores_case branchName branchName' rule lastIndex :
  RegExp.ignoreCase rule = true →
  JSString.isAscii branchName = true →
  JSString.isAscii branchName' = true →
  sameUpToCase branchName branchName' →
  extractJiraTicket branchName rule lastIndex
  = extractJiraTicket branchName' rule lastIndex.
Proof.
  intros Hi _ _ Hcase. unfold extractJiraTicket.
  destruct (String_match_same _ _ rule lastIndex Hi Hcase) as [Hm ->].
  f_equal.
  destruct Hm as [m m' Hm|]; [|done].
  unfold sameCaptures in Hm. rewrite Forall2_lookup in Hm. specialize (Hm 1).
  destruct Hm as [o o' Ho|]; [|done].
  destruct Ho as [g g' Hg|]; [|done].
  by rewrite Hg.
Qed.

Lemma extractJiraTicket_ignores_case_witness :
  extractJiraTicket "playg-1008-Foo" defaultTicketPattern 0
  = extractJiraTicket "PLAYG-1008-fOO" defaultTicketPattern 0.
Proof.
  exact (extractJiraTicket_ignores_case "playg-1008-Foo" "PLAYG-1008-fOO"
           defaultTicketPattern 0 eq_refl eq_refl eq_refl eq_refl).
Defined.

(** *** Branch names the default rule cannot match *)

Lemma toUpperCaseChar_hyphen (c : ascii) :
  JSString.toUpperCaseChar c = "-"%char → c = "-"%char.
Proof. by destruct c as [[] [] [] [] [] [] [] []]. Qed.

Lemma toUpperCaseChar_digit (c : ascii) :
  isDigit (JSString.toUpperCaseChar c) = true → isDigit c = true.
Proof. by destruct c as [[] [] [] [] [] [] [] []]. Qed.

Lemma default_no_match branchName lastIndex :
  allChars (λ c, negb (Ascii.eqb c "-")) branchName = true ∨
  allChars (λ c, negb (isDigit c)) branchName = true →
  extractJiraTicket branchName defaultTicketPattern lastIndex
  = (Normal None, lastIndex).
Proof.
  intros Hno. unfold extractJiraTicket, String_match; simpl.
  destruct (RegExp.exec _ _ _ _ _) as [r|] eqn:Hr; [exfalso|done].
  apply default_capture_parts in Hr
    as (pieces1 & ch & pieces2 & a & b & _ & Hslice & _ & _ & Hch%inSet_hyphen
        & Hall2 & Hlen2).
  apply toUpperCaseChar_hyphen in Hch as ->.
  destruct Hno as [Hno|Hno];
    apply (allChars_substring _ _ a (b - a)) in Hno;
    unfold JSString.substring in Hslice; rewrite <-Hslice in Hno;
    rewrite !allChars_append in Hno;
    apply andb_true_iff in Hno as [_ [Hh Hd]%andb_true_iff].
  - done.
  - destruct Hall2 as [|s pieces2 (d & -> & Hdigit%inSet_digits) _]; [simpl in *; lia|].
    apply toUpperCaseChar_digit in Hdigit.
    change (joined (String d "" :: pieces2)) with (String d (joined pieces2)) in Hd.
    simpl in Hd. by rewrite Hdigit in Hd.
Qed.

(** X5. Under the default rule a branch name that has no hyphen, or no
    digit, yields absent. *)
Theorem extractJiraTicket_default_absent branchName lastIndex :
  allChars (λ c, negb (Ascii.eqb c "-")) branchName = true ∨
  allChars (λ c, negb (isDigit c)) branchName = true →
  extractJiraTicket branchName defaultTicketPattern lastIndex
  = (Normal None, lastIndex).
Proof. apply default_no_match. Qed.

Lemma extractJiraTicket_default_absent_witness :
  extractJiraTicket "fix-typo" defaultTicketPattern 0 = (Normal None, 0).
Proof.
  apply extractJiraTicket_default_absent. right. reflexivity.
Defined.

(** ** The loop on whole arrays *)
Section Arrays.
Context {R R' : Type}.
Implicit Types (c : ConventionalCommit R R') (σ : Store R R').
Implicit Types (objs : list (ConventionalCommit R R')).
Implicit Types (options : JiraLinkOptions) (commits : list ref).
Variable base : string.
Variable pat : RegExp.t.
Variable style : LinkStyle.

(** A loop completes exactly when every slot of the array holds a commit
    on which the extractor does not throw. *)
Lemma annotateAll_Normal_iff commits objs :
  (annotateAll base pat style commits objs).1 = Normal () ↔
  ∀ l, l ∈ commits → ∃ c, objs !! l = Some c ∧ outcome pat c = Normal ().
Proof.
  split.
  - revert objs. induction commits as [|x commits IH]; intros objs Hn l Hl.
    { by apply elem_of_nil in Hl. }
    simpl in Hn. destruct (objs !! x) as [c|] eqn:Hx; [|done].
    destruct (outcome pat c) as [[]|] eqn:Ho; [|done].
    destruct (decide (l = x)) as [->|Hne]; [by eauto|].
    apply elem_of_cons in Hl as [?|Hl]; [done|].
    destruct (IH _ Hn l Hl) as (c' & Hc' & Ho').
    rewrite list_lookup_insert_ne in Hc' by done. eauto.
  - intros Hall.
    destruct (annotateAll base pat style commits objs).1 as [[]|e] eqn:Hr; [done|].
    apply annotateAll_Throw in Hr as (l & Hl & Hcause).
    destruct (Hall l Hl) as (c & Hc & Ho).
    destruct Hcause as [Hnone|(c' & Hc' & Ht)]; [congruence|].
    assert (c' = c) as -> by congruence.
    unfold outcome, outcomeOf in Ho. by rewrite Ht in Ho.
Qed.

(** The objects a completed loop leaves: annotated if the array refers
    to them, untouched otherwise. *)
Lemma annotateAll_Normal_objects commits objs l :
  (annotateAll base pat style commits objs).1 = Normal () →
  (annotateAll base pat style commits objs).2 !! l =
    (λ c, if bool_decide (l ∈ commits) then annotate base pat style c else c)
    <$> objs !! l.
Proof.
  intros Hn. destruct (objs !! l) as [c|] eqn:Hl; simpl.
  - case_bool_decide as Hin.
    + by apply annotateAll_Normal.
    + by rewrite annotateAll_lookup_notin.
  - by apply annotateAll_lookup_None.
Qed.

End Arrays.

Section Batches.
Context {R R' : Type}.
Implicit Types (c : ConventionalCommit R R') (σ : Store R R').
Implicit Types (options : JiraLinkOptions) (commits : list ref).

(** X6. With the default pattern, or a custom pattern without the [g]
    flag that is one capturing group, [addJiraLinksToCommits] completes
    normally on every array whose slots all hold a commit, and
    [processCommits] then logs no error. *)
Theorem addJiraLinksToCommits_completes commits options σ :
  (ticketPattern options = None ∨
   ∃ p icase sticky,
     ticketPattern options = Some (RegExp.mk (RegExp.Group p) icase false sticky)) →
  Forall (λ commit, is_Some (objects σ !! commit)) commits →
  (addJiraLinksToCommits commits options σ).1 = Normal commits ∧
  logger (processCommits options commits σ).2 =
    logger σ ++ [(log_info, "JiraLinkPlugin processing " +:+ pretty (length commits)
                            +:+ " commits")].
Proof.
  intros Hpat Hslots.
  assert (Hgroup : ∃ p icase sticky,
            ticketPatternOf options = RegExp.mk (RegExp.Group p) icase false sticky).
  { unfold ticketPatternOf.
    destruct Hpat as [->|(p & icase & sticky & ->)]; simpl; eauto. }
  destruct Hgroup as (p & icase & sticky & Hp).
  assert (Hn : (annotateAllFrom (jiraBaseUrlOf options) (ticketPatternOf options)
                  (linkStyleOf options) commits (objects σ)
                  (ticketPattern_lastIndex σ)).1 = Normal ()).
  { apply annotateAllFrom_Normal; [|done]. rewrite Hp.
    intros b li. apply extractJiraTicket_Group. }
  split.
  - by rewrite addJiraLinksToCommits_completion_from, Hn.
  - unfold processCommits, mbind, JS_bind, logger_log, tryCatch; simpl.
    rewrite addJiraLinksToCommits_eq; simpl. by rewrite Hn.
Qed.

(** X7. After a run that completed, every commit of the array whose
    branch name yields a ticket, the same in whatever state the rule
    is, names that ticket in [message] and in [bareMessage]. *)
Theorem addJiraLinksToCommits_links_present
    commits options σ v σ' commit c branchName ticketId :
  addJiraLinksToCommits commits options σ = (Normal v, σ') →
  commit ∈ commits →
  objects σ !! commit = Some c →
  truthyBranchName (pullRequest c) = Some branchName →
  (∀ lastIndex,
     (extractJiraTicket branchName (ticketPatternOf options) lastIndex).1
     = Normal (Some ticketId)) →
  ∃ c', objects σ' !! commit = Some c' ∧
        JSString.includes (message c') ticketId = true ∧
        JSString.includes (bareMessage c') ticketId = true.
Proof.
  intros Hrun Hin Hc Hb Ht.
  assert (Hobj := addJiraLinksToCommits_objects_from commits options σ).
  assert (Hcompl := addJiraLinksToCommits_completion_from commits options σ).
  rewrite Hrun in Hobj, Hcompl; simpl in Hobj, Hcompl.
  eexists. split.
  - rewrite Hobj.
    eapply (annotateAllFrom_lookup_fixed _ _ _ commits _ _ commit c
              (Normal (Some ticketId))); [|done| |done].
    + intros lastIndex. unfold ticketAt. rewrite Hb. apply Ht.
    + destruct (annotateAllFrom _ _ _ _ _ _).1 as [[]|]; [done|congruence].
  - unfold annotateWith.
    destruct ticketId as [|a id]; [by rewrite !includes_empty|].
    simpl. by rewrite !appendUnlessIncluded_includes.
Qed.

(** X8. The duplicate check is a plain substring test: a field that
    already mentions the commit's ticket (the same in whatever state
    the rule is) anywhere is never changed, whether or not it holds a
    link and however the run ends. *)
Theorem addJiraLinksToCommits_mention_blocks_link
    commits options σ l c branchName ticketId :
  objects σ !! l = Some c →
  truthyBranchName (pullRequest c) = Some branchName →
  (∀ lastIndex,
     (extractJiraTicket branchName (ticketPatternOf options) lastIndex).1
     = Normal (Some ticketId)) →
  ∃ c', objects (addJiraLinksToCommits commits options σ).2 !! l = Some c' ∧
        (JSString.includes (message c) ticketId = true → message c' = message c) ∧
        (JSString.includes (bareMessage c) ticketId = true →
         bareMessage c' = bareMessage c).
Proof.
  intros Hl Hb Ht. rewrite addJiraLinksToCommits_objects_from.
  destruct (annotateAllFrom_lookup_fixed (jiraBaseUrlOf options) (ticketPatternOf options)
              (linkStyleOf options) commits (objects σ) (ticketPattern_lastIndex σ)
              l c (Normal (Some ticketId))) as [[H|H] _]; [|done|..].
  { intros lastIndex. unfold ticketAt. rewrite Hb. apply Ht. }
  - eexists. split; [exact H|]. done.
  - eexists. split; [exact H|]. unfold annotateWith.
    destruct ticketId as [|a id]; [done|]. simpl. unfold appendUnlessIncluded.
    split; by intros ->.
Qed.

(** X9. For runs that complete, under a rule that is not sticky, only
    the set of commits the array refers to matters: an array with the
    same references in another order, or with some of them repeated,
    completes as well and leaves the same objects. *)
Theorem addJiraLinksToCommits_order_irrelevant commits commits' options σ :
  RegExp.sticky (ticketPatternOf options) = false →
  (∀ l, l ∈ commits ↔ l ∈ commits') →
  (addJiraLinksToCommits commits options σ).1 = Normal commits →
  (addJiraLinksToCommits commits' options σ).1 = Normal commits' ∧
  objects (addJiraLinksToCommits commits' options σ).2
  = objects (addJiraLinksToCommits commits options σ).2.
Proof.
  intros Hs Hsame Hn.
  rewrite addJiraLinksToCommits_completion in Hn by done.
  rewrite !addJiraLinksToCommits_completion, !addJiraLinksToCommits_objects by done.
  set (base := jiraBaseUrlOf options) in *. set (pat := ticketPatternOf options) in *.
  set (style := linkStyleOf options) in *.
  assert (Hn1 : (annotateAll base pat style commits (objects σ)).1 = Normal ()).
  { destruct (annotateAll base pat style commits (objects σ)).1 as [[]|]; [done|congruence]. }
  assert (Hn2 : (annotateAll base pat style commits' (objects σ)).1 = Normal ()).
  { apply annotateAll_Normal_iff. intros l Hl%Hsame.
    by apply (proj1 (annotateAll_Normal_iff base pat style commits (objects σ)) Hn1). }
  split; [by rewrite Hn2|].
  apply list_eq. intros l.
  rewrite !annotateAll_Normal_objects by done.
  destruct (objects σ !! l) as [c|]; [simpl|done].
  by rewrite (bool_decide_ext _ _ (Hsame l)).
Qed.

(** X10. Splitting a batch: when the run on a first array completes, the
    run on that array followed by a second one leaves the objects that
    running the second after the first leaves, and completes exactly
    when that second run does; when the first run throws, so does the
    run on the two together, with the same error and the same objects. *)
Theorem addJiraLinksToCommits_app commits1 commits2 options σ :
  let first := addJiraLinksToCommits commits1 options σ in
  let both := addJiraLinksToCommits (commits1 ++ commits2) options σ in
  match first.1 with
  | Normal _ =>
      let second := addJiraLinksToCommits commits2 options first.2 in
      objects both.2 = objects second.2 ∧
      (both.1 = Normal (commits1 ++ commits2) ↔ second.1 = Normal commits2) ∧
      (∀ e, both.1 = Throw e ↔ second.1 = Throw e)
  | Throw e => both.1 = Throw e ∧ objects both.2 = objects first.2
  end.
Proof.
  intros first both. subst first both. cbv zeta.
  repeat rewrite ?addJiraLinksToCommits_completion_from,
    ?addJiraLinksToCommits_objects_from, ?addJiraLinksToCommits_lastIndex_from.
  rewrite annotateAllFrom_app.
  destruct (annotateAllFrom _ _ _ commits1 _ _) as [[[]|e] [objs1 li1]]; simpl; [|done].
  destruct (annotateAllFrom _ _ _ commits2 _ _) as [[[]|e2] [objs2 li2]]; simpl;
    repeat split; try done; intros; congruence.
Qed.

(** X11. When the run throws, the commit objects are exactly what a
    completed run on the commits before the failing one leaves: those
    are annotated, the failing commit and all later ones are as that
    run left them;
    the error is that of the extractor on the failing commit's branch
    name, called on the rule as that run left it. *)
Theorem addJiraLinksToCommits_failure_prefix commits options σ e :
  (addJiraLinksToCommits commits options σ).1 = Throw e →
  ∃ pre bad post,
    commits = pre ++ bad :: post ∧
    (addJiraLinksToCommits pre options σ).1 = Normal pre ∧
    objects (addJiraLinksToCommits commits options σ).2
    = objects (addJiraLinksToCommits pre options σ).2 ∧
    (objects (addJiraLinksToCommits pre options σ).2 !! bad = None ∨
     ∃ c branchName,
       objects (addJiraLinksToCommits pre options σ).2 !! bad = Some c ∧
       truthyBranchName (pullRequest c) = Some branchName ∧
       (extractJiraTicket branchName (ticketPatternOf options)
          (ticketPattern_lastIndex (addJiraLinksToCommits pre options σ).2)).1
       = Throw e ∧
       (RegExp.sticky (ticketPatternOf options) = false →
        ∀ lastIndex,
          (extractJiraTicket branchName (ticketPatternOf options) lastIndex).1
          = Throw e)).
Proof.
  rewrite addJiraLinksToCommits_completion_from. intros Hr.
  destruct (annotateAllFrom _ _ _ _ _ _).1 as [|e'] eqn:Hr'; [done|]. injection Hr as ->.
  apply annotateAllFrom_Throw_split in Hr'
    as (pre & bad & post & -> & Hn & Hobj & Hbad).
  exists pre, bad, post. split; [done|].
  rewrite !addJiraLinksToCommits_completion_from, !addJiraLinksToCommits_objects_from,
    addJiraLinksToCommits_lastIndex_from, Hn.
  repeat split; [done|].
  destruct Hbad as [?|(c & Hc & Ht)]; [by left|right].
  unfold ticketAt in Ht.
  destruct (truthyBranchName (pullRequest c)) as [b|] eqn:Hb; [|done].
  exists c, b. repeat split; [done..|].
  intros Hs li. by rewrite <-Ht; apply extractJiraTicket_stateless.
Qed.

End Batches.

Lemma addJiraLinksToCommits_completes_witness :
  let σ := Examples.store [Examples.feature; Examples.unlinked; Examples.halfLinked] in
  (addJiraLinksToCommits [2; 0; 1; 0] Examples.noOptions σ).1 = Normal [2; 0; 1; 0].
Proof.
  intros σ.
  refine (proj1 (addJiraLinksToCommits_completes [2; 0; 1; 0] Examples.noOptions σ
                   (or_introl eq_refl) _)).
  repeat constructor; by eexists.
Defined.

Lemma addJiraLinksToCommits_links_present_witness :
  let σ := Examples.store [Examples.unlinked; Examples.halfLinked] in
  ∃ c', objects (addJiraLinksToCommits [0; 1] Examples.noOptions σ).2 !! 1 = Some c' ∧
        JSString.includes (message c') "QUIKS-674" = true ∧
        JSString.includes (bareMessage c') "QUIKS-674" = true.
Proof.
  intros σ.
  refine (addJiraLinksToCommits_links_present [0; 1] Examples.noOptions σ [0; 1]
            (addJiraLinksToCommits [0; 1] Examples.noOptions σ).2
            1 Examples.halfLinked "quiks-674-crash" "QUIKS-674"
            eq_refl _ eq_refl eq_refl (λ _, eq_refl)).
  apply elem_of_cons; right. apply elem_of_cons; by left.
Defined.

Lemma addJiraLinksToCommits_mention_blocks_link_witness :
  let σ := Examples.store [Examples.unlinked; Examples.halfLinked] in
  ∃ c', objects (addJiraLinksToCommits [0; 1] Examples.noOptions σ).2 !! 1 = Some c' ∧
        bareMessage c' = "fix: crash on start (QUIKS-674)".
Proof.
  intros σ.
  destruct (addJiraLinksToCommits_mention_blocks_link [0; 1] Examples.noOptions σ
              1 Examples.halfLinked "quiks-674-crash" "QUIKS-674"
              eq_refl eq_refl (λ _, eq_refl)) as (c' & Hc' & _ & Hbare).
  exists c'. split; [exact Hc'|]. exact (Hbare eq_refl).
Defined.

Lemma addJiraLinksToCommits_order_irrelevant_witness :
  let σ := Examples.store [Examples.feature; Examples.unlinked; Examples.halfLinked] in
  objects (addJiraLinksToCommits [2; 2; 0] Examples.noOptions σ).2
  = objects (addJiraLinksToCommits [0; 2] Examples.noOptions σ).2.
Proof.
  intros σ.
  refine (proj2 (addJiraLinksToCommits_order_irrelevant [0; 2] [2; 2; 0]
                   Examples.noOptions σ eq_refl _ eq_refl)).
  intros l. rewrite !elem_of_cons, !elem_of_nil. tauto.
Defined.

Lemma addJiraLinksToCommits_failure_prefix_witness :
  let σ := Examples.store [Examples.ab; Examples.cd] in
  ∃ pre bad post,
    [0; 1] = pre ++ bad :: post ∧
    objects (addJiraLinksToCommits [0; 1] Examples.oneSidedOptions σ).2
    = objects (addJiraLinksToCommits pre Examples.oneSidedOptions σ).2.
Proof.
  intros σ.
  destruct (addJiraLinksToCommits_failure_prefix [0; 1] Examples.oneSidedOptions σ
              (TypeError "Cannot read properties of undefined (reading 'toUpperCase')")
              eq_refl) as (pre & bad & post & Hsplit & _ & Hobj & _).
  by exists pre, bad, post.
Defined.

(** ** The plugin *)
Section PluginProperties.
Context {R R' : Type}.
Implicit Types (σ : Store R R') (options : JiraLinkOptions) (commits : list ref).

(** X12. [processCommits] never lets an error out: on every store, empty
    slots included, it completes normally and returns the array it was
    given; it leaves the objects [addJiraLinksToCommits] leaves; and it
    logs one info line, followed by one error line exactly when
    [addJiraLinksToCommits] threw. *)
Theorem processCommits_never_throws jiraOptions commits σ :
  let out := processCommits jiraOptions commits σ in
  let run := addJiraLinksToCommits commits jiraOptions σ in
  out.1 = Normal commits ∧
  objects out.2 = objects run.2 ∧
  logger out.2 =
    logger σ ++
    (log_info, "JiraLinkPlugin processing " +:+ pretty (length commits) +:+ " commits")
    :: match run.1 with
       | Normal _ => []
       | Throw e => [(log_error, "Error in JiraLinkPlugin: " +:+ JSError_toString e)]
       end.
Proof.
  intros out run. subst out run.
  unfold processCommits, mbind, JS_bind, logger_log, tryCatch; simpl.
  rewrite !addJiraLinksToCommits_eq; simpl.
  destruct (annotateAllFrom _ _ _ _ _ _).1; simpl; by rewrite <-?(assoc_L (++)).
Qed.

(** X13. With a rule that is not sticky, [processCommits] is idempotent
    on the commits, also when it caught an error: a second call leaves
    every commit object as the first call left it. *)
Theorem processCommits_idempotent jiraOptions commits σ :
  RegExp.sticky (ticketPatternOf jiraOptions) = false →
  let once := processCommits jiraOptions commits σ in
  let twice := processCommits jiraOptions commits once.2 in
  objects twice.2 = objects once.2.
Proof.
  intros Hs once twice. subst once twice.
  rewrite (proj2 (processCommits_completes jiraOptions commits _)).
  rewrite addJiraLinksToCommits_objects by done.
  rewrite (proj2 (processCommits_completes jiraOptions commits σ)).
  rewrite addJiraLinksToCommits_objects by done. by rewrite annotateAll_idemp.
Qed.

Lemma JiraLinkPlugin_jiraOptions_resolved options :
  jiraBaseUrlOf (JiraLinkPlugin_jiraOptions None None options) = jiraBaseUrlOf options ∧
  ticketPatternOf (JiraLinkPlugin_jiraOptions None None options) = ticketPatternOf options ∧
  linkStyleOf (JiraLinkPlugin_jiraOptions None None options) = linkStyleOf options ∧
  debugOf (JiraLinkPlugin_jiraOptions None None options) = debugOf options.
Proof.
  unfold jiraBaseUrlOf, ticketPatternOf, linkStyleOf, debugOf; simpl.
  repeat split.
  - unfold string_or. destruct (jiraBaseUrl options) as [[|a u]|]; done.
  - by rewrite orb_false_r.
Qed.

(** X14. With neither environment variable set, a plugin made by
    [createJiraLinkPlugin] treats the commits exactly as
    [addJiraLinksToCommits] does with the same options, except that it
    never throws: resolving the defaults in the constructor and again in
    the engine changes nothing. *)
Theorem createJiraLinkPlugin_processCommits options commits σ :
  let out := createAndProcess None None options commits σ in
  out.1 = Normal commits ∧
  objects out.2 = objects (addJiraLinksToCommits commits options σ).2 ∧
  console out.2 = console (addJiraLinksToCommits commits options σ).2.
Proof.
  intros out. subst out.
  unfold createAndProcess, createJiraLinkPlugin, JiraLinkPlugin_new,
    processCommits, mbind, JS_bind, mret, JS_ret, logger_log, tryCatch.
  cbn [plugin_jiraOptions fst snd objects console logger ticketPattern_lastIndex].
  rewrite !addJiraLinksToCommits_eq.
  destruct (JiraLinkPlugin_jiraOptions_resolved options) as (-> & -> & -> & ->).
  cbn [fst snd objects console logger ticketPattern_lastIndex].
  by destruct (annotateAllFrom _ _ _ _ _ _).1.
Qed.

(** Resolving the options is idempotent, and an explicit base URL wins
    over [JIRA_BASE_URL], which wins over the built-in default; an empty
    string counts as not given at each level. *)
Lemma JiraLinkPlugin_jiraOptions_precedence env_url env_debug options :
  JiraLinkPlugin_jiraOptions env_url env_debug
    (JiraLinkPlugin_jiraOptions env_url env_debug options)
  = JiraLinkPlugin_jiraOptions env_url env_debug options ∧
  jiraBaseUrlOf (JiraLinkPlugin_jiraOptions env_url env_debug options) =
    match jiraBaseUrl options, env_url with
    | Some (String _ _ as url), _ => url
    | _, Some (String _ _ as url) => url
    | _, _ => default_jiraBaseUrl
    end.
Proof.
  unfold JiraLinkPlugin_jiraOptions, jiraBaseUrlOf, string_or; simpl. split.
  - f_equal.
    + destruct (jiraBaseUrl options) as [[|a u]|], env_url as [[|a' u']|]; done.
    + by rewrite <-orb_assoc, orb_diag.
  - destruct (jiraBaseUrl options) as [[|a u]|], env_url as [[|a' u']|]; done.
Qed.

End PluginProperties.

Lemma processCommits_idempotent_witness :
  let σ := Examples.store [Examples.ab; Examples.cd] in
  let jiraOptions := JiraLinkPlugin_jiraOptions None None Examples.oneSidedOptions in
  let once := processCommits jiraOptions [0; 1] σ in
  objects (processCommits jiraOptions [0; 1] once.2).2 = objects once.2.
Proof.
  intros σ jiraOptions once.
  exact (processCommits_idempotent jiraOptions [0; 1] σ eq_refl).
Defined.

(** X15. With the default pattern a commit whose branch name has no
    hyphen, or no digit, is never touched, whatever array is processed
    and however the run ends. *)
Theorem addJiraLinksToCommits_default_untouched {R R'}
    commits options (σ : Store R R') l c :
  ticketPattern options = None →
  objects σ !! l = Some c →
  (∀ branchName, truthyBranchName (pullRequest c) = Some branchName →
     allChars (λ ch, negb (Ascii.eqb ch "-")) branchName = true ∨
     allChars (λ ch, negb (isDigit ch)) branchName = true) →
  objects (addJiraLinksToCommits commits options σ).2 !! l = Some c.
Proof.
  intros Hpat Hl Hbranch. rewrite addJiraLinksToCommits_objects_from.
  destruct (annotateAllFrom_lookup_fixed (jiraBaseUrlOf options) (ticketPatternOf options)
              (linkStyleOf options) commits (objects σ) (ticketPattern_lastIndex σ)
              l c (Normal None)) as [[H|H] _]; [|done..].
  intros lastIndex. unfold ticketAt, ticketPatternOf. rewrite Hpat; simpl.
  destruct (truthyBranchName (pullRequest c)) as [b|]; [|done].
  by rewrite (default_no_match b lastIndex (Hbranch b eq_refl)).
Qed.

Lemma addJiraLinksToCommits_default_untouched_witness :
  let typo := Examples.commit "9e8d7c6" "fix: typo" (Some (Some "fix-typo")) in
  let σ := Examples.store [Examples.feature; typo] in
  objects (addJiraLinksToCommits [0; 1] Examples.noOptions σ).2 !! 1 = Some typo.
Proof.
  intros typo σ.
  refine (addJiraLinksToCommits_default_untouched [0; 1] Examples.noOptions σ 1 typo
            eq_refl eq_refl _).
  intros b Hb. injection Hb as <-. right. reflexivity.
Defined.

(** ** Runs with other options *)
Section CrossRuns.
Context {R R' : Type}.
Implicit Types (c : ConventionalCommit R R') (σ : Store R R').
Implicit Types (objs : list (ConventionalCommit R R')).
Implicit Types (options : JiraLinkOptions) (commits : list ref).

(** An annotated commit passes the duplicate check of any later visit
    under the same pattern, whatever link that visit would append. *)
Lemma annotate_annotate base base' pat style style' c :
  annotate base' pat style' (annotate base pat style c) = annotate base pat style c.
Proof.
  unfold annotate at 1. rewrite ticketOf_annotate.
  unfold annotate, annotateWith.
  destruct (ticketOf pat c) as [[[|a id]|]|e] eqn:Ht; try done.
  simpl. unfold appendUnlessIncluded at 1 3.
  by rewrite !appendUnlessIncluded_includes.
Qed.

Lemma annotateAll_annotateAll base base' pat style style' commits objs :
  annotateAll base' pat style' commits (annotateAll base pat style commits objs).2
  = annotateAll base pat style commits objs.
Proof.
  revert objs. induction commits as [|commit commits IH]; intros objs; simpl; [done|].
  destruct (objs !! commit) as [c0|] eqn:Hc.
  - destruct (outcome pat c0) as [[]|e0] eqn:Ho.
    + set (objs1 := <[commit := annotate base pat style c0]> objs).
      assert (H : (annotateAll base pat style commits objs1).2 !! commit
                  = Some (annotate base pat style c0)).
      { destruct (annotateAll_lookup base pat style commits objs1 commit
                    (annotate base pat style c0)) as [H|H]; [|done|].
        - apply list_lookup_insert_eq. by eapply lookup_lt_Some.
        - by rewrite annotate_idemp in H. }
      rewrite H, outcome_annotate, Ho, annotate_annotate.
      rewrite list_insert_id by done. apply IH.
    + simpl. by rewrite Hc, Ho.
  - simpl. by rewrite Hc.
Qed.

(** X16. With a rule that is not sticky, idempotence does not depend on
    the base URL, the link style or the debug flag: a second run with
    the same pattern and any other base URL or style leaves every
    commit object as the first run left it (it neither adds a second
    link nor rewrites the first). *)
Theorem addJiraLinksToCommits_rerun_other_options commits options options' σ :
  RegExp.sticky (ticketPatternOf options) = false →
  ticketPatternOf options' = ticketPatternOf options →
  let once := addJiraLinksToCommits commits options σ in
  let twice := addJiraLinksToCommits commits options' once.2 in
  objects twice.2 = objects once.2 ∧ twice.1 = once.1.
Proof.
  intros Hs Hpat once twice. subst once twice.
  assert (Hs' : RegExp.sticky (ticketPatternOf options') = false) by (by rewrite Hpat).
  repeat rewrite ?addJiraLinksToCommits_completion, ?addJiraLinksToCommits_objects
    by done.
  by rewrite Hpat, annotateAll_annotateAll.
Qed.

(** X17. What a completed run does to a commit of the array whose branch
    name yields a ticket, the same in whatever state the rule is: each
    of [message] and [bareMessage] is kept if it mentions the ticket and
    is otherwise followed by the formatted link; nothing else
    changes. *)
Theorem addJiraLinksToCommits_result
    commits options σ v σ' commit c branchName ticketId :
  addJiraLinksToCommits commits options σ = (Normal v, σ') →
  commit ∈ commits →
  objects σ !! commit = Some c →
  truthyBranchName (pullRequest c) = Some branchName →
  (∀ lastIndex,
     (extractJiraTicket branchName (ticketPatternOf options) lastIndex).1
     = Normal (Some ticketId)) →
  let jiraLink :=
    formatJiraLink ticketId (jiraBaseUrlOf options) (linkStyleOf options) in
  objects σ' !! commit =
    Some {| sha := sha c;
            message :=
              if JSString.includes (message c) ticketId then message c
              else message c +:+ jiraLink;
            bareMessage :=
              if JSString.includes (bareMessage c) ticketId then bareMessage c
              else bareMessage c +:+ jiraLink;
            pullRequest := pullRequest c;
            commit_rest := commit_rest c |}.
Proof.
  intros Hrun Hin Hc Hb Ht jiraLink. subst jiraLink.
  assert (Hobj := addJiraLinksToCommits_objects_from commits options σ).
  assert (Hcompl := addJiraLinksToCommits_completion_from commits options σ).
  rewrite Hrun in Hobj, Hcompl; simpl in Hobj, Hcompl.
  assert (Hfix : ∀ lastIndex,
            (ticketAt (ticketPatternOf options) lastIndex c).1
            = Normal (Some ticketId)).
  { intros lastIndex. unfold ticketAt. rewrite Hb. apply Ht. }
  rewrite Hobj.
  rewrite (proj2 (annotateAllFrom_lookup_fixed _ _ _ commits _ _ commit c
                    (Normal (Some ticketId)) Hfix Hc)); [|..|done].
  - f_equal. unfold annotateWith.
    destruct ticketId as [|a id]; [|done].
    rewrite !includes_empty. by destruct c.
  - destruct (annotateAllFrom _ _ _ _ _ _).1 as [[]|]; [done|congruence].
Qed.

(** X18. In debug mode a completed run reports every element of the
    array: the console gains the line that counts the commits and at
    least one line for each element. *)
Theorem addJiraLinksToCommits_debug_reports commits options σ :
  debugOf options = true →
  (addJiraLinksToCommits commits options σ).1 = Normal commits →
  ∃ lines,
    console (addJiraLinksToCommits commits options σ).2 =
      console σ ++
      ("Processing " +:+ pretty (length commits) +:+ " commits for Jira links")
      :: lines ∧
    length commits ≤ length lines.
Proof.
  intros Hdbg. rewrite addJiraLinksToCommits_completion_from, addJiraLinksToCommits_eq.
  rewrite Hdbg. cbn [fst snd console]. intros Hn. eexists. split; [done|].
  apply printedFrom_length.
  destruct (annotateAllFrom _ _ _ _ _ _).1 as [[]|]; [done|congruence].
Qed.

End CrossRuns.

Lemma addJiraLinksToCommits_rerun_other_options_witness :
  let σ := Examples.store [Examples.feature; Examples.unlinked] in
  let other :=
    {| jiraBaseUrl := Some "https://example.atlassian.net"; ticketPattern := None;
       linkStyle := Some newline; debug := Some true |} in
  let once := addJiraLinksToCommits [0; 1] Examples.noOptions σ in
  objects (addJiraLinksToCommits [0; 1] other once.2).2 = objects once.2.
Proof.
  intros σ other once.
  exact (proj1 (addJiraLinksToCommits_rerun_other_options [0; 1] Examples.noOptions
                  other σ eq_refl eq_refl)).
Defined.

Lemma addJiraLinksToCommits_result_witness :
  let σ := Examples.store [Examples.feature] in
  objects (addJiraLinksToCommits [0] Examples.noOptions σ).2 !! 0 =
    Some {| sha := "3f2a9c1d7e";
            message :=
              "feat: add feature ([PLAYG-1008](https://yourcompany.atlassian.net/browse/PLAYG-1008))";
            bareMessage :=
              "feat: add feature ([PLAYG-1008](https://yourcompany.atlassian.net/browse/PLAYG-1008))";
            pullRequest :=
              Some {| headBranchName := Some "PLAYG-1008-test-feature";
                      pullRequest_rest := () |};
            commit_rest := () |}.
Proof.
  intros σ.
  refine (addJiraLinksToCommits_result [0] Examples.noOptions σ [0]
            (addJiraLinksToCommits [0] Examples.noOptions σ).2
            0 Examples.feature "PLAYG-1008-test-feature" "PLAYG-1008"
            eq_refl _ eq_refl eq_refl (λ _, eq_refl)).
  apply elem_of_cons; by left.
Defined.

Lemma addJiraLinksToCommits_debug_reports_witness :
  let σ := Examples.store [Examples.feature; Examples.unlinked] in
  let options := setDebug (Some true) Examples.noOptions in
  ∃ lines,
    console (addJiraLinksToCommits [0; 1] options σ).2 =
      "Processing 2 commits for Jira links" :: lines ∧
    2 ≤ length lines.
Proof.
  intros σ options.
  exact (addJiraLinksToCommits_debug_reports [0; 1] options σ eq_refl eq_refl).
Defined.
